(** * kiera.js entity cache: ClubChannel, Club and Member

    A shallow embedding of [src/structures/ClubChannel.js], [Club.js] and
    [Member.js]: the presence-aware merges ([update]), the construction of a
    [Member], the voice-state bookkeeping and the two permission resolvers
    ([Club.permissionsOf] and [ClubChannel.permissionsOf]).

    JavaScript values are embedded as [JSValue]; an object used as a record
    of attributes (a payload, or the plain attributes of an entity) is a
    finite map from property names to values; a method that mutates [this]
    takes the old state and returns the new one; a method that can throw
    returns a [Result]. *)

From Stdlib Require Import ZArith String List Bool Lia.
From stdpp Require Import base option list gmap strings.

#[local] Set Warnings "-register-all".
Local Open Scope string_scope.
Local Open Scope Z_scope.

(** ** JavaScript values *)

(** Numbers are restricted to the integers: every number the modelled code
    computes with is a capability mask, a position or a level. *)
Inductive JSValue : Type :=
| JUndefined
| JNull
| JBool (b : bool)
| JNum (n : Z)
| JStr (s : string)
| JArr (items : list JSValue)
| JObj (fields : list (string * JSValue)).

(** A payload, and the plain attributes of an entity. *)
Abbreviation JSObject := (gmap string JSValue).

(** [o.k]: a property that is not there reads as [undefined]. *)
Definition prop (o : JSObject) (k : string) : JSValue :=
  default JUndefined (o !! k).

(** [o.hasOwnProperty(k)] *)
Definition hasOwnProperty (o : JSObject) (k : string) : bool :=
  bool_decide (is_Some (o !! k)).

(** ToBoolean. *)
Definition truthy (v : JSValue) : bool :=
  match v with
  | JUndefined | JNull => false
  | JBool b => b
  | JNum n => negb (Z.eqb n 0)
  | JStr s => negb (String.eqb s "")
  | JArr _ | JObj _ => true
  end.

(** [a || b] returns one of its operands, not a boolean. *)
Definition js_or (a b : JSValue) : JSValue := if truthy a then a else b.

(** [a === b] on primitives.  Two arrays or objects are equal only when they
    are the same reference; values that come from different payloads never
    are, so the comparison is [false] on them. *)
Definition strict_eq (a b : JSValue) : bool :=
  match a, b with
  | JUndefined, JUndefined => true
  | JNull, JNull => true
  | JBool x, JBool y => Bool.eqb x y
  | JNum x, JNum y => Z.eqb x y
  | JStr x, JStr y => String.eqb x y
  | _, _ => false
  end.

(** ** Exceptions *)

(** [new Error(message + value)] keeps the two parts of its text apart. *)
Inductive Exception : Type :=
| TypeError
| Error (message : string) (value : JSValue).

Inductive Result (A : Type) : Type :=
| Ok (a : A)
| Throw (e : Exception).
Arguments Ok {A} a.
Arguments Throw {A} e.

#[global] Instance Result_ret : MRet Result := fun A a => Ok a.

#[global] Instance Result_bind : MBind Result := fun A B k r =>
  match r with
  | Ok a => k a
  | Throw e => Throw e
  end.

(** [v.k] on an arbitrary value: reading a property of [undefined] or [null]
    throws; a primitive has no own property of that name. *)
Fixpoint assoc (k : string) (fields : list (string * JSValue)) : JSValue :=
  match fields with
  | [] => JUndefined
  | (k', v) :: rest => if String.eqb k k' then v else assoc k rest
  end.

Definition get_field (v : JSValue) (k : string) : Result JSValue :=
  match v with
  | JUndefined | JNull => Throw TypeError
  | JObj fields => Ok (assoc k fields)
  | _ => Ok JUndefined
  end.

Fixpoint chars (s : string) : list JSValue :=
  match s with
  | EmptyString => []
  | String c rest => JStr (String c EmptyString) :: chars rest
  end.

(** [for (const x of v)]: arrays and strings are iterable, the rest is not. *)
Definition iterate (v : JSValue) : Result (list JSValue) :=
  match v with
  | JArr items => Ok items
  | JStr s => Ok (chars s)
  | _ => Throw TypeError
  end.

(** ** 32-bit bitwise operators *)

(** ToInt32: the operands of [&], [|] and [~] wrap to signed 32 bits. *)
Definition to_int32 (n : Z) : Z := (n + 2 ^ 31) mod 2 ^ 32 - 2 ^ 31.

Definition band (a b : Z) : Z := Z.land (to_int32 a) (to_int32 b).
Definition bor (a b : Z) : Z := Z.lor (to_int32 a) (to_int32 b).
Definition bnot (a : Z) : Z := Z.lnot (to_int32 a).

(** A number used as a condition. *)
Definition nonzero (n : Z) : bool := negb (Z.eqb n 0).

(** ** Collaborating classes that are not among the sources *)

(** Modelled from the spec: [Constants.Permissions] is not among the
    sources.  The resolvers use two of its entries: the administrator
    capability and the "all capabilities" mask. *)
Record PermissionConstants : Type := {
  administrator : Z;
  all : Z
}.

(** Modelled from the spec: class [Permission] is not among the sources; it
    wraps a single bitmask, which the resolvers read back as [.allow]. *)
Record Permission : Type := { allow : Z }.

(** Modelled from the spec: class [PermissionOverwrite] is not among the
    sources; a subject id and type with an allow mask and a deny mask. *)
Record PermissionOverwrite : Type := {
  ow_id : string;
  ow_type : JSValue;
  ow_allow : Z;
  ow_deny : Z
}.

(** Modelled from the spec: class [Role] is not among the sources; the
    resolvers read [role.permissions.allow]. *)
Record Role : Type := {
  role_id : string;
  role_permissions : Permission
}.

(** Modelled from the spec: class [VoiceState] is not among the sources; a
    member id, a nullable channel id and the three flags. *)
Record VoiceState : Type := {
  vs_id : JSValue;
  vs_channelID : JSValue;
  vs_mute : JSValue;
  vs_deaf : JSValue;
  vs_suppress : JSValue
}.

(** Modelled from the spec: [new VoiceState({id})], the detached all-default
    voice state keyed by [id]. *)
Definition VoiceState_new (id : JSValue) : VoiceState :=
  {| vs_id := id; vs_channelID := JNull;
     vs_mute := JBool false; vs_deaf := JBool false; vs_suppress := JBool false |}.

(** The value of an attribute once a field is merged into it. *)
Definition merge (old : JSValue) (new : JSValue) : JSValue :=
  match new with JUndefined => old | _ => new end.

(** Modelled from the spec: [VoiceState.update], the presence-aware merge of
    the channel id and the flags. *)
Definition VoiceState_update (data : JSObject) (this : VoiceState) : VoiceState :=
  {| vs_id := vs_id this;
     vs_channelID := merge (vs_channelID this) (prop data "channel_id");
     vs_mute := merge (vs_mute this) (prop data "mute");
     vs_deaf := merge (vs_deaf this) (prop data "deaf");
     vs_suppress := merge (vs_suppress this) (prop data "suppress") |}.

(** Modelled from the spec: class [User] is not among the sources; the
    member only holds a reference to it. *)
Record User : Type := {
  user_id : JSValue;
  user_data : JSValue
}.

(** *** Keyed registry *)

(** Modelled from the spec: class [Collection] is not among the sources; a
    mapping from id to entity with the standard [get], [has] and [delete].
    The ids that key a registry are strings, so a key of another type finds
    nothing. *)
Abbreviation Collection V := (gmap string V).

Definition Collection_get {V} (c : Collection V) (key : JSValue) : option V :=
  match key with
  | JStr k => c !! k
  | _ => None
  end.

Definition Collection_has {V} (c : Collection V) (key : JSValue) : bool :=
  bool_decide (is_Some (Collection_get c key)).

Definition Collection_delete {V} (c : Collection V) (key : JSValue) : Collection V :=
  match key with
  | JStr k => delete k c
  | _ => c
  end.

(** Modelled from the spec: [Collection.update] is merge-only, and does
    nothing when no entity is registered under the payload's id. *)
Definition Collection_update_VoiceState
    (c : Collection VoiceState) (data : JSObject) : Collection VoiceState :=
  match prop data "id" with
  | JStr k =>
      match c !! k with
      | Some state => <[k := VoiceState_update data state]> c
      | None => c
      end
  | _ => c
  end.

(** Modelled from the spec: [Collection.add] on the user registry looks the
    payload's id up, constructs and inserts a [User] when there is none, and
    returns the registered entity.  What merging a payload into a registered
    user changes is [User.update], which is not among the sources; the user
    is returned as it is. *)
Definition Collection_add_User
    (c : Collection User) (payload : JSValue) : Result (User * Collection User) :=
  id ← get_field payload "id";
  match Collection_get c id with
  | Some u => Ok (u, c)
  | None =>
      let u := {| user_id := id; user_data := payload |} in
      match id with
      | JStr k => Ok (u, <[k := u]> c)
      | _ => Ok (u, c)
      end
  end.

(** ** Entities *)

(** [this.club] is a reference to the owning [Club]; the methods below take
    the referenced object as an argument and, when they write to it, return
    its new state. *)
Record Member : Type := {
  member_id : JSValue;
  member_user : option User;
  member_props : JSObject
}.

(** A channel whose registry of overwrites exists.  Lines 45-46 are the
    only place [this.permissionOverwrites] is assigned; a channel that never
    received [permission_overwrites] has no registry, and that state is the
    [None] of [ClubChannel_permissionsOf_on] below. *)
Record ClubChannel : Type := {
  channel_id : string;
  channel_props : JSObject;
  permissionOverwrites : Collection PermissionOverwrite
}.

Record Club : Type := {
  club_id : string;
  club_props : JSObject;
  roles : Collection Role;
  members : Collection Member;
  voiceStates : Collection VoiceState
}.

(** ** Permission resolution *)

Section Resolution.
Variable Permissions : PermissionConstants.

(** [memberID instanceof Member ? memberID : registry.get(memberID)] *)
Definition resolve (registry : Collection Member) (memberID : Member + JSValue)
  : option Member :=
  match memberID with
  | inl member => Some member
  | inr id => Collection_get registry id
  end.

(** The body of the loop of [Club.permissionsOf], lines 838-851:
    [continue] on an unknown role, [break] on an administrator role. *)
Fixpoint club_roles_loop (registry : Collection Role)
    (ids : list JSValue) (permissions : Z) : Z :=
  match ids with
  | [] => permissions
  | role :: rest =>
      match Collection_get registry role with
      | None => club_roles_loop registry rest permissions
      | Some role =>
          let perm := allow (role_permissions role) in
          if nonzero (band perm (administrator Permissions))
          then all Permissions
          else club_roles_loop registry rest (bor permissions perm)
      end
  end.

(** [Club.permissionsOf], lines 832-854. *)
Definition Club_permissionsOf (this : Club) (memberID : Member + JSValue)
  : Result Permission :=
  match resolve (members this) memberID with
  | None => Throw TypeError
  | Some member =>
      if strict_eq (member_id member) (prop (club_props this) "ownerID")
      then Ok {| allow := all Permissions |}
      else
        match roles this !! club_id this with
        | None => Throw TypeError
        | Some everyone =>
            let permissions := allow (role_permissions everyone) in
            ids ← iterate (prop (member_props member) "roles");
            Ok {| allow := club_roles_loop (roles this) ids permissions |}
        end
  end.

(** [permission = (permission & ~overwrite.deny) | overwrite.allow] *)
Definition apply_masks (permission deny allow : Z) : Z :=
  bor (band permission (bnot deny)) allow.

Definition apply_overwrite (permission : Z) (overwrite : option PermissionOverwrite) : Z :=
  match overwrite with
  | Some o => apply_masks permission (ow_deny o) (ow_allow o)
  | None => permission
  end.

(** The loop of [ClubChannel.permissionsOf], lines 128-133, on the two
    accumulators [(deny, allow)]. *)
Fixpoint channel_roles_loop (overwrites : Collection PermissionOverwrite)
    (ids : list JSValue) (acc : Z * Z) : Z * Z :=
  match ids with
  | [] => acc
  | roleID :: rest =>
      match Collection_get overwrites roleID with
      | Some overwrite =>
          channel_roles_loop overwrites rest
            (bor (fst acc) (ow_deny overwrite), bor (snd acc) (ow_allow overwrite))
      | None => channel_roles_loop overwrites rest acc
      end
  end.

(** [ClubChannel.permissionsOf], lines 116-140; [club] is [this.club]. *)
Definition ClubChannel_permissionsOf (club : Club) (this : ClubChannel)
    (memberID : Member + JSValue) : Result Permission :=
  let member := resolve (members club) memberID in
  base ← Club_permissionsOf club
           (match member with Some m => inl m | None => inr JUndefined end);
  let permission := allow base in
  if nonzero (band permission (administrator Permissions))
  then Ok {| allow := all Permissions |}
  else
    match member with
    | None => Throw TypeError
    | Some member =>
        let permission :=
          apply_overwrite permission (permissionOverwrites this !! club_id club) in
        ids ← iterate (prop (member_props member) "roles");
        let '(deny, allow_) := channel_roles_loop (permissionOverwrites this) ids (0, 0) in
        let permission := apply_masks permission deny allow_ in
        let permission :=
          apply_overwrite permission
            (Collection_get (permissionOverwrites this) (member_id member)) in
        Ok {| allow := permission |}
    end.
End Resolution.

(** ** Merges *)

(** [if(data.field !== undefined) { this.attr = f(data.field); }] *)
Definition assign_if_defined_with (f : JSValue -> JSValue)
    (field attr : string) (data this : JSObject) : JSObject :=
  match prop data field with
  | JUndefined => this
  | v => <[attr := f v]> this
  end.

(** [if(data.field !== undefined) { this.attr = data.field; }] *)
Definition assign_if_defined : string -> string -> JSObject -> JSObject -> JSObject :=
  assign_if_defined_with (fun v => v).

(** *** ClubChannel.update *)

(** [name.length === 4 ? name === "nsfw" : name.startsWith("nsfw-")] for
    whatever value [this.name] holds.  A value without [length] or without
    [startsWith] makes the expression throw; an array or an object of length
    4 takes the first branch, where it is not the string ["nsfw"].  The
    length of a string counts its characters: names are taken to be ASCII. *)
Definition name_heuristic (name : JSValue) : Result bool :=
  match name with
  | JStr s =>
      Ok (if Nat.eqb (String.length s) 4 then String.eqb s "nsfw"
          else String.prefix "nsfw-" s)
  | JArr items => if Nat.eqb (List.length items) 4 then Ok false else Throw TypeError
  | JObj fields =>
      if strict_eq (assoc "length" fields) (JNum 4) then Ok false else Throw TypeError
  | JUndefined | JNull | JBool _ | JNum _ => Throw TypeError
  end.

(** Modelled from the spec: the constructor of [PermissionOverwrite] is not
    among the sources; overwrite payloads are trusted to be a subject id and
    type with two numeric masks, and a mask that is not a number reads as 0. *)
Definition mask_of (v : JSValue) : Z :=
  match v with JNum n => n | _ => 0 end.

Definition PermissionOverwrite_new (id : string) (fields : list (string * JSValue))
  : PermissionOverwrite :=
  {| ow_id := id; ow_type := assoc "type" fields;
     ow_allow := mask_of (assoc "allow" fields);
     ow_deny := mask_of (assoc "deny" fields) |}.

(** Modelled from the spec: [Collection.add] on a registry of overwrites
    constructs and inserts the overwrite when its id is new and returns the
    registered one otherwise; a payload without an id cannot be keyed. *)
Definition Collection_add_overwrite
    (c : Collection PermissionOverwrite) (payload : JSValue)
  : Result (Collection PermissionOverwrite) :=
  match payload with
  | JObj fields =>
      match assoc "id" fields with
      | JStr k =>
          match c !! k with
          | Some _ => Ok c
          | None => Ok (<[k := PermissionOverwrite_new k fields]> c)
          end
      | _ => Throw (Error "Missing object id" JUndefined)
      end
  | JUndefined | JNull => Throw TypeError
  | _ => Throw (Error "Missing object id" JUndefined)
  end.

(** [data.permission_overwrites.forEach(...)], lines 47-49: the registry is
    filled in place, so what was added before an exception stays. *)
Fixpoint add_overwrites (items : list JSValue) (c : Collection PermissionOverwrite)
  : Collection PermissionOverwrite * option Exception :=
  match items with
  | [] => (c, None)
  | overwrite :: rest =>
      match Collection_add_overwrite c overwrite with
      | Ok c' => add_overwrites rest c'
      | Throw e => (c, Some e)
      end
  end.

(** [ClubChannel.update], lines 31-51.  The result is the channel as the
    call leaves it and the exception it raised, if any. *)
Definition ClubChannel_update (data : JSObject) (this : ClubChannel)
  : ClubChannel * option Exception :=
  let props := channel_props this in
  let props := assign_if_defined "type" "type" data props in
  let props := assign_if_defined "name" "name" data props in
  let props := assign_if_defined "position" "position" data props in
  let props := assign_if_defined "parent_id" "parentID" data props in
  match name_heuristic (prop props "name") with
  | Throw e =>
      ({| channel_id := channel_id this; channel_props := props;
          permissionOverwrites := permissionOverwrites this |}, Some e)
  | Ok matches =>
      let props := <["nsfw" := js_or (JBool matches) (prop data "nsfw")]> props in
      if truthy (prop data "permission_overwrites") then
        match prop data "permission_overwrites" with
        | JArr items =>
            let '(overwrites, e) := add_overwrites items ∅ in
            ({| channel_id := channel_id this; channel_props := props;
                permissionOverwrites := overwrites |}, e)
        | _ =>
            ({| channel_id := channel_id this; channel_props := props;
                permissionOverwrites := ∅ |}, Some TypeError)
        end
      else
        ({| channel_id := channel_id this; channel_props := props;
            permissionOverwrites := permissionOverwrites this |}, None)
  end.

(** *** Club.update *)

(** [Club.update], lines 302-381. *)
Definition Club_update (data : JSObject) (this : Club) : Club :=
  let props := club_props this in
  let props := assign_if_defined "name" "name" data props in
  let props := assign_if_defined "verification_level" "verificationLevel" data props in
  let props := assign_if_defined "splash" "splash" data props in
  let props := assign_if_defined "banner" "banner" data props in
  let props := assign_if_defined "region" "region" data props in
  let props := assign_if_defined "owner_id" "ownerID" data props in
  let props := assign_if_defined "icon" "icon" data props in
  let props := assign_if_defined "features" "features" data props in
  let props := assign_if_defined "emojis" "emojis" data props in
  let props := assign_if_defined "afk_channel_id" "afkChannelID" data props in
  let props := assign_if_defined "afk_timeout" "afkTimeout" data props in
  let props :=
    assign_if_defined "default_message_notifications" "defaultNotifications" data props in
  let props := assign_if_defined "mfa_level" "mfaLevel" data props in
  let props := assign_if_defined "large" "large" data props in
  let props := assign_if_defined "max_presences" "maxPresences" data props in
  let props :=
    assign_if_defined "explicit_content_filter" "explicitContentFilter" data props in
  let props := assign_if_defined "system_channel_id" "systemChannelID" data props in
  let props := assign_if_defined "premium_tier" "premiumTier" data props in
  let props :=
    assign_if_defined "premium_subscription_count" "premiumSubscriptionCount" data props in
  let props := assign_if_defined "vanity_url_code" "vanityURL" data props in
  let props := assign_if_defined "preferred_locale" "preferredLocale" data props in
  let props := assign_if_defined "description" "description" data props in
  let props := assign_if_defined "max_members" "maxMembers" data props in
  let props :=
    assign_if_defined "public_updates_channel_id" "publicUpdatesChannelID" data props in
  let props := assign_if_defined "rules_channel_id" "rulesChannelID" data props in
  let props :=
    assign_if_defined "max_video_channel_users" "maxVideoChannelUsers" data props in
  {| club_id := club_id this; club_props := props; roles := roles this;
     members := members this; voiceStates := voiceStates this |}.

(** *** Member *)

Section MemberMethods.
(** The two built-ins [Member.update] calls. *)
Variable Date_parse : JSValue -> JSValue.
Variable Object_assign : JSValue -> JSValue -> JSValue.

Definition offline : JSValue :=
  JObj [("web", JStr "offline"); ("desktop", JStr "offline"); ("mobile", JStr "offline")].

(** Lines 1029-1038, on the voice-state registry of [this.club]. *)
Definition update_voice (data : JSObject) (id : JSValue)
    (registry : Collection VoiceState) : Collection VoiceState :=
  let state := Collection_get registry id in
  if strict_eq (prop data "channel_id") JNull
     && negb (truthy (prop data "mute"))
     && negb (truthy (prop data "deaf"))
     && negb (truthy (prop data "suppress"))
  then Collection_delete registry id
  else
    match state, id with
    | Some state, JStr k => <[k := VoiceState_update data state]> registry
    | Some _, _ => registry
    | None, _ =>
        if truthy (js_or (js_or (js_or (prop data "channel_id") (prop data "mute"))
                                (prop data "deaf")) (prop data "suppress"))
        then Collection_update_VoiceState registry data
        else registry
    end.

(** [Member.update], lines 1010-1045; [club] is [this.club]. *)
Definition Member_update (data : JSObject) (club : option Club) (this : Member)
  : Member * option Club :=
  let props := member_props this in
  let props := assign_if_defined "status" "status" data props in
  let props := assign_if_defined "game" "game" data props in
  let props := assign_if_defined_with Date_parse "joined_at" "joinedAt" data props in
  let props :=
    assign_if_defined_with (Object_assign offline) "client_status" "clientStatus"
      data props in
  let props := assign_if_defined "activities" "activities" data props in
  let props := assign_if_defined "premium_since" "premiumSince" data props in
  let club :=
    match club with
    | Some c =>
        if hasOwnProperty data "mute" then
          Some {| club_id := club_id c; club_props := club_props c; roles := roles c;
                  members := members c;
                  voiceStates := update_voice data (member_id this) (voiceStates c) |}
        else Some c
    | None => None
    end in
  let props := assign_if_defined "nick" "nick" data props in
  let props := assign_if_defined "roles" "roles" data props in
  ({| member_id := member_id this; member_user := member_user this;
      member_props := props |}, club).

(** [get voiceState], lines 1096-1104: [has] guards [get]. *)
Definition Member_voiceState (club : option Club) (this : Member) : VoiceState :=
  match club with
  | Some c =>
      match Collection_has (voiceStates c) (member_id this),
            Collection_get (voiceStates c) (member_id this) with
      | true, Some state => state
      | _, _ => VoiceState_new (member_id this)
      end
  | None => VoiceState_new (member_id this)
  end.

(** Modelled from the spec: [new User(payload, client)]. *)
Definition User_new (payload : JSValue) : User :=
  {| user_id := match get_field payload "id" with Ok v => v | Throw _ => JUndefined end;
     user_data := payload |}.

(** The constructor of [Member], lines 985-1008.  [users] is the
    process-wide registry [club.shard.client.users]; the result is the
    member, the registry and the club as the constructor leaves them. *)
Definition Member_new (data : JSObject) (club : option Club) (users : Collection User)
  : Result (Member * Collection User * option Club) :=
  id ← (if truthy (prop data "id") then Ok (prop data "id")
        else get_field (prop data "user") "id");
  data ← (if negb (truthy (prop data "id")) && truthy (prop data "user")
          then user_id ← get_field (prop data "user") "id";
               Ok (<["id" := user_id]> data)
          else Ok data);
  '(user, users) ←
    match club with
    | Some _ =>
        match Collection_get users (prop data "id") with
        | Some user => Ok (Some user, users)
        | None =>
            if truthy (prop data "user") then
              '(user, users) ← Collection_add_User users (prop data "user");
              Ok (Some user, users)
            else Throw (Error "User associated with Member not found: " (prop data "id"))
        end
    | None =>
        if truthy (prop data "user") then Ok (Some (User_new (prop data "user")), users)
        else Ok (None, users)
    end;
  let props : JSObject :=
    <["roles" := JArr []]> (<["nick" := JNull]> (<["game" := JNull]> ∅)) in
  let '(member, club) :=
    Member_update data club
      {| member_id := id; member_user := user; member_props := props |} in
  Ok (member, users, club).
End MemberMethods.

(** ** What the spec says, as definitions of its own *)

(** The overwrites registered on a channel for the roles of a list. *)
Definition held_overwrites (overwrites : Collection PermissionOverwrite)
    (ids : list JSValue) : list PermissionOverwrite :=
  omap (Collection_get overwrites) ids.

(** "OR their deny masks together and OR their allow masks together". *)
Definition pooled (masks : list Z) : Z := foldr bor 0 masks.

(** Section 4.3, steps 2 to 4: everyone, then the roles pooled, then the
    member. *)
Definition resolution_order (club : Club) (channel : ClubChannel)
    (member : JSValue) (ids : list JSValue) (base : Z) : Z :=
  let overwrites := permissionOverwrites channel in
  let everyone := apply_overwrite base (overwrites !! club_id club) in
  let held := held_overwrites overwrites ids in
  let pooled_roles :=
    apply_masks everyone (pooled (ow_deny <$> held)) (pooled (ow_allow <$> held)) in
  apply_overwrite pooled_roles (Collection_get overwrites member).


(** The fields [Club.update] copies, in the order of its statements. *)
Definition Club_fields : list (string * string) :=
  [("name", "name"); ("verification_level", "verificationLevel");
   ("splash", "splash"); ("banner", "banner"); ("region", "region");
   ("owner_id", "ownerID"); ("icon", "icon"); ("features", "features");
   ("emojis", "emojis"); ("afk_channel_id", "afkChannelID");
   ("afk_timeout", "afkTimeout");
   ("default_message_notifications", "defaultNotifications");
   ("mfa_level", "mfaLevel"); ("large", "large"); ("max_presences", "maxPresences");
   ("explicit_content_filter", "explicitContentFilter");
   ("system_channel_id", "systemChannelID"); ("premium_tier", "premiumTier");
   ("premium_subscription_count", "premiumSubscriptionCount");
   ("vanity_url_code", "vanityURL"); ("preferred_locale", "preferredLocale");
   ("description", "description"); ("max_members", "maxMembers");
   ("public_updates_channel_id", "publicUpdatesChannelID");
   ("rules_channel_id", "rulesChannelID");
   ("max_video_channel_users", "maxVideoChannelUsers")].


(** The fields [ClubChannel.update] copies under a guard. *)
Definition ClubChannel_fields : list (string * string) :=
  [("type", "type"); ("name", "name"); ("position", "position");
   ("parent_id", "parentID")].

(** A sequence of guarded assignments, as a table of transformation, payload
    field and attribute. *)
Definition assign_all (table : list ((JSValue -> JSValue) * string * string))
    (data this : JSObject) : JSObject :=
  foldl (fun props '(f, field, attr) => assign_if_defined_with f field attr data props)
        this table.

Definition copied (fields : list (string * string))
  : list ((JSValue -> JSValue) * string * string) :=
  (fun '(field, attr) => (fun v : JSValue => v, field, attr)) <$> fields.

(** The guarded assignments of [Member.update], in the order of its
    statements. *)
Definition Member_assignments (Date_parse : JSValue -> JSValue)
    (Object_assign : JSValue -> JSValue -> JSValue)
  : list ((JSValue -> JSValue) * string * string) :=
  [(fun v => v, "status", "status"); (fun v => v, "game", "game");
   (Date_parse, "joined_at", "joinedAt");
   (Object_assign offline, "client_status", "clientStatus");
   (fun v => v, "activities", "activities");
   (fun v => v, "premium_since", "premiumSince");
   (fun v => v, "nick", "nick"); (fun v => v, "roles", "roles")].

(** The name of a channel once a payload is merged into it. *)
Definition merged_name (data : JSObject) (channel : ClubChannel) : JSValue :=
  merge (prop (channel_props channel) "name") (prop data "name").

(** The roles of a list that the registry of the club knows. *)
Definition held_roles (registry : Collection Role) (ids : list JSValue) : list Role :=
  omap (Collection_get registry) ids.

(** The role ids of a list that have an entry in the registry. *)
Definition known_ids (registry : Collection Role) (ids : list JSValue) : list JSValue :=
  filter (fun id => is_Some (Collection_get registry id)) ids.

Definition is_administrator (P : PermissionConstants) (role : Role) : bool :=
  nonzero (band (allow (role_permissions role)) (administrator P)).

(** Section 4.4: the allow mask of the everyone role OR-ed with the allow
    mask of every role held. *)
Definition accumulated (everyone : Role) (held : list Role) : Z :=
  foldl bor (allow (role_permissions everyone)) (allow ∘ role_permissions <$> held).

(** Section 4.4 with its administrator short-circuit. *)
Definition club_mask (P : PermissionConstants) (everyone : Role) (held : list Role) : Z :=
  if existsb (is_administrator P) held then all P else accumulated everyone held.

(** ** A small club to evaluate the definitions on *)

(** Modelled from the spec: the values of [Constants.Permissions] are not
    among the sources.  Every theorem below holds for arbitrary constants;
    the examples use one capability bit for the administrator and the 31
    low bits for the full mask. *)
Definition sample_Permissions : PermissionConstants :=
  {| administrator := 8; all := 2147483647 |}.

Definition role (id : string) (mask : Z) : Role :=
  {| role_id := id; role_permissions := {| allow := mask |} |}.

Definition overwrite (id type : string) (allow_ deny_ : Z) : PermissionOverwrite :=
  {| ow_id := id; ow_type := JStr type; ow_allow := allow_; ow_deny := deny_ |}.

Definition member (id : string) (role_ids : list string) : Member :=
  {| member_id := JStr id;
     member_user := Some {| user_id := JStr id; user_data := JObj [("id", JStr id)] |};
     member_props :=
       <["roles" := JArr (JStr <$> role_ids)]> (<["nick" := JNull]> (<["game" := JNull]> ∅)) |}.

(** The owner ["1"] holds no role, ["2"] holds the administrator role
    ["200"], ["3"] holds the roles ["300"] and ["400"] and the id ["999"] of
    a role that is no longer registered. *)
Definition sample_owner : Member := member "1" [].
Definition sample_admin : Member := member "2" ["200"].
Definition sample_member : Member := member "3" ["300"; "999"; "400"].

Definition sample_voice : VoiceState :=
  {| vs_id := JStr "3"; vs_channelID := JStr "600";
     vs_mute := JBool false; vs_deaf := JBool true; vs_suppress := JBool false |}.

Definition sample_club : Club :=
  {| club_id := "100";
     club_props := <["ownerID" := JStr "1"]> (<["name" := JStr "chess"]> ∅);
     roles :=
       <["100" := role "100" 1024]> (<["200" := role "200" 8]>
       (<["300" := role "300" 2048]> (<["400" := role "400" 0]> ∅)));
     members :=
       <["1" := sample_owner]> (<["2" := sample_admin]> (<["3" := sample_member]> ∅));
     voiceStates := <["3" := sample_voice]> ∅ |}.

(** Everyone is denied bit 10; role ["300"] denies bit 12 and role ["400"]
    allows it. *)
Definition sample_channel : ClubChannel :=
  {| channel_id := "500";
     channel_props := <["nsfw" := JBool true]> (<["name" := JStr "general"]> ∅);
     permissionOverwrites :=
       <["100" := overwrite "100" "role" 0 1024]>
       (<["300" := overwrite "300" "role" 0 4096]>
       (<["400" := overwrite "400" "role" 4096 0]> ∅)) |}.

(** The same channel with an overwrite for member ["3"] that denies bit 12. *)
Definition sample_private_channel : ClubChannel :=
  {| channel_id := "501";
     channel_props := <["name" := JStr "nsfw"]> ∅;
     permissionOverwrites :=
       <["3" := overwrite "3" "member" 0 4096]> (permissionOverwrites sample_channel) |}.

(** A channel named ["lobby"] is renamed; the flag is absent. *)
Definition sample_rename : JSObject := {["name" := JStr "lobby"]}.

(** A patch that carries neither a name nor the flag. *)
Definition sample_move : JSObject := {["position" := JNum 1]}.

(** A patch that carries the flag, set to false. *)
Definition sample_flag_off : JSObject := {["nsfw" := JBool false]}.

(** A club patch that clears the name and says nothing of the owner. *)
Definition sample_patch : JSObject := {["name" := JNull]}.

(** Member ["3"] leaves voice. *)
Definition sample_disconnect : JSObject :=
  <["id" := JStr "3"]> (<["channel_id" := JNull]> (<["mute" := JBool false]>
  (<["deaf" := JBool false]> (<["suppress" := JBool false]> ∅)))).

(** A member payload with an id and no embedded user. *)
Definition sample_orphan : JSObject := {["id" := JStr "42"]}.

(** A member payload with an embedded user. *)
Definition sample_join : JSObject :=
  {["user" := JObj [("id", JStr "9"); ("username", JStr "nine")]]}.

(** ** The merge rule for an attribute that is stored transformed *)




(** ** Channel scope on a channel that may have no registry *)

(** [ClubChannel.permissionsOf], lines 116-140, for whatever
    [this.permissionOverwrites] holds: [None] is the attribute of a channel
    no payload of which carried [permission_overwrites], on which
    [this.permissionOverwrites.get] at line 122 throws. *)
Definition ClubChannel_permissionsOf_on (Permissions : PermissionConstants)
    (club : Club) (registry : option (Collection PermissionOverwrite))
    (memberID : Member + JSValue) : Result Permission :=
  let member := resolve (members club) memberID in
  base ← Club_permissionsOf Permissions club
           (match member with Some m => inl m | None => inr JUndefined end);
  let permission := allow base in
  if nonzero (band permission (administrator Permissions))
  then Ok {| allow := all Permissions |}
  else
    match registry with
    | None => Throw TypeError
    | Some overwrites =>
        match member with
        | None => Throw TypeError
        | Some member =>
            let permission :=
              apply_overwrite permission (overwrites !! club_id club) in
            ids ← iterate (prop (member_props member) "roles");
            let '(deny, allow_) := channel_roles_loop overwrites ids (0, 0) in
            let permission := apply_masks permission deny allow_ in
            let permission :=
              apply_overwrite permission (Collection_get overwrites (member_id member)) in
            Ok {| allow := permission |}
        end
    end.

(** ** Accessors and readings used by the further properties *)

(** [get permissions], lines 1084-1086: [this.club.permissionsOf(this)];
    [club] is [this.club]. *)
Definition Member_permissions (P : PermissionConstants)
    (club : option Club) (this : Member) : Result Permission :=
  match club with
  | Some c => Club_permissionsOf P c (inl this)
  | None => Throw TypeError
  end.

(** Whether an overwrite, if there is one, allows or denies bit [i]. *)
Definition allows (o : option PermissionOverwrite) (i : Z) : bool :=
  from_option (fun o => Z.testbit (ow_allow o) i) false o.

Definition denies (o : option PermissionOverwrite) (i : Z) : bool :=
  from_option (fun o => Z.testbit (ow_deny o) i) false o.

(** The name test of line 44 on a string, as a disjunction. *)
Definition nsfw_name (s : string) : bool :=
  String.eqb s "nsfw" || String.prefix "nsfw-" s.

(** The condition of line 1031: the payload says the member left voice. *)
Definition disconnects (data : JSObject) : bool :=
  strict_eq (prop data "channel_id") JNull
  && negb (truthy (prop data "mute"))
  && negb (truthy (prop data "deaf"))
  && negb (truthy (prop data "suppress")).

(** A channel whose only overwrite is for a role nobody in the sample club
    holds. *)
Definition sample_quiet_channel : ClubChannel :=
  {| channel_id := "502";
     channel_props := <["name" := JStr "quiet"]> ∅;
     permissionOverwrites := <["700" := overwrite "700" "role" 1 2]> ∅ |}.

(** Member ["3"] with its roles in another order and one of them twice. *)
Definition sample_member_shuffled : Member :=
  member "3" ["400"; "300"; "400"; "999"].

(** A club whose everyone role carries the administrator bit, and a member
    of it without roles. *)
Definition sample_open_club : Club :=
  {| club_id := "100";
     club_props := <["ownerID" := JStr "1"]> ∅;
     roles := <["100" := role "100" 1032]> ∅;
     members := <["4" := member "4" []]> ∅;
     voiceStates := ∅ |}.

(** The sample club, marked unavailable by its constructor. *)
Definition sample_outage_club : Club :=
  {| club_id := "100";
     club_props := <["unavailable" := JBool true]> (club_props sample_club);
     roles := roles sample_club; members := members sample_club;
     voiceStates := voiceStates sample_club |}.

(** Two club patches that touch different fields. *)
Definition sample_region_patch : JSObject := {["region" := JStr "eu"]}.
Definition sample_icon_patch : JSObject :=
  <["icon" := JNull]> (<["name" := JStr "go"]> ∅).

(** A patch that replaces the overwrites of a channel by none, and two whose
    overwrites are not an array. *)
Definition sample_no_overwrites : JSObject := {["permission_overwrites" := JArr []]}.
Definition sample_bad_overwrites : JSObject := {["permission_overwrites" := JNum 5]}.

(** A patch that sets the name of a channel to a number. *)
Definition sample_bad_name : JSObject :=
  <["position" := JNum 7]> (<["name" := JNum 5]>
  (<["permission_overwrites" := JArr []]> ∅)).

(** Member ["3"] is muted by the server; member ["2"], who has no voice
    state, is reported as having left. *)
Definition sample_mute : JSObject :=
  <["id" := JStr "3"]> (<["mute" := JBool true]> ∅).
Definition sample_status : JSObject :=
  <["status" := JStr "idle"]> (<["channel_id" := JNull]> ∅).
Definition sample_roles_patch : JSObject := {["roles" := JArr [JStr "200"]]}.

(** A registry that caches user ["42"]. *)
Definition sample_users : Collection User :=
  <["42" := {| user_id := JStr "42"; user_data := JObj [("id", JStr "42")] |}]> ∅.

(** A payload with an id and an embedded user of another id, and one with
    neither. *)
Definition sample_cached_join : JSObject :=
  <["id" := JStr "42"]> (<["user" := JObj [("id", JStr "43")]]> ∅).
Definition sample_anonymous : JSObject := {["nick" := JStr "ghost"]}.

(** ** Bitwise arithmetic *)

Definition int32 (n : Z) : Prop := - 2 ^ 31 <= n < 2 ^ 31.

Lemma to_int32_range n : int32 (to_int32 n).
Proof.
  unfold int32, to_int32.
  pose proof (Z.mod_pos_bound (n + 2 ^ 31) (2 ^ 32)) as H. lia.
Qed.

Lemma to_int32_small n : int32 n -> to_int32 n = n.
Proof.
  unfold int32, to_int32. intros H.
  rewrite Z.mod_small by lia. lia.
Qed.

Lemma int32_shiftr n : int32 n <-> Z.shiftr n 31 = 0 \/ Z.shiftr n 31 = -1.
Proof.
  unfold int32. rewrite Z.shiftr_div_pow2 by lia.
  change (2 ^ 31) with 2147483648.
  split; intros H; Z.div_mod_to_equations; lia.
Qed.

Lemma int32_land a b : int32 a -> int32 b -> int32 (Z.land a b).
Proof.
  rewrite !int32_shiftr, Z.shiftr_land.
  intros [-> | ->] [-> | ->]; auto.
Qed.

Lemma int32_lor a b : int32 a -> int32 b -> int32 (Z.lor a b).
Proof.
  rewrite !int32_shiftr, Z.shiftr_lor.
  intros [-> | ->] [-> | ->]; auto.
Qed.

Lemma int32_lnot a : int32 a -> int32 (Z.lnot a).
Proof. unfold int32. rewrite Z.lnot_eq_pred_opp. lia. Qed.

Lemma int32_band a b : int32 (band a b).
Proof. apply int32_land; apply to_int32_range. Qed.

Lemma int32_bor a b : int32 (bor a b).
Proof. apply int32_lor; apply to_int32_range. Qed.

Lemma int32_bnot a : int32 (bnot a).
Proof. apply int32_lnot, to_int32_range. Qed.

Lemma to_int32_testbit n i : 0 <= i < 32 -> Z.testbit (to_int32 n) i = Z.testbit n i.
Proof.
  intros Hi.
  rewrite <- (Z.mod_pow2_bits_low (to_int32 n) 32 i) by lia.
  rewrite <- (Z.mod_pow2_bits_low n 32 i) by lia.
  f_equal. unfold to_int32.
  rewrite Zminus_mod, Zplus_mod.
  rewrite Z.mod_mod by lia.
  rewrite <- Zplus_mod, <- Zminus_mod.
  f_equal. lia.
Qed.

Lemma band_testbit a b i :
  0 <= i < 32 -> Z.testbit (band a b) i = Z.testbit a i && Z.testbit b i.
Proof.
  intros Hi. unfold band. rewrite Z.land_spec, !to_int32_testbit; auto.
Qed.

Lemma bor_testbit a b i :
  0 <= i < 32 -> Z.testbit (bor a b) i = Z.testbit a i || Z.testbit b i.
Proof.
  intros Hi. unfold bor. rewrite Z.lor_spec, !to_int32_testbit; auto.
Qed.

Lemma bnot_testbit a i :
  0 <= i < 32 -> Z.testbit (bnot a) i = negb (Z.testbit a i).
Proof.
  intros Hi. unfold bnot. rewrite Z.lnot_spec, to_int32_testbit; auto; lia.
Qed.

Lemma bor_assoc a b c : bor (bor a b) c = bor a (bor b c).
Proof.
  unfold bor at 1 3.
  rewrite !(to_int32_small (bor _ _)) by apply int32_bor.
  unfold bor. apply eq_sym, Z.lor_assoc.
Qed.

Lemma bor_0_r a : int32 a -> bor a 0 = a.
Proof.
  intros H. unfold bor. rewrite (to_int32_small a) by done.
  apply Z.lor_0_r.
Qed.

Lemma bor_0_l a : int32 a -> bor 0 a = a.
Proof.
  intros H. unfold bor. rewrite (to_int32_small a) by done.
  apply Z.lor_0_l.
Qed.

Lemma int32_0 : int32 0.
Proof. unfold int32. lia. Qed.

Lemma int32_pooled masks : int32 (pooled masks).
Proof. destruct masks; [apply int32_0 | apply int32_bor]. Qed.

(** The loop accumulates from the left, the pool is folded from the right. *)
Lemma foldl_bor_pooled z masks :
  int32 z -> foldl bor z masks = bor z (pooled masks).
Proof.
  revert z. induction masks as [| m masks IH]; intros z Hz; simpl.
  - by rewrite bor_0_r.
  - rewrite IH by apply int32_bor. apply bor_assoc.
Qed.

Lemma apply_masks_testbit p d a i :
  0 <= i < 32 ->
  Z.testbit (apply_masks p d a) i
  = Z.testbit p i && negb (Z.testbit d i) || Z.testbit a i.
Proof.
  intros Hi. unfold apply_masks.
  by rewrite bor_testbit, band_testbit, bnot_testbit.
Qed.

Lemma pooled_testbit masks i :
  0 <= i < 32 ->
  Z.testbit (pooled masks) i = existsb (fun m => Z.testbit m i) masks.
Proof.
  intros Hi. induction masks as [| m masks IH]; simpl.
  - apply Z.bits_0.
  - by rewrite bor_testbit, IH.
Qed.

(** ** The two resolvers *)

Lemma channel_roles_loop_pooled overwrites ids d a :
  int32 d -> int32 a ->
  channel_roles_loop overwrites ids (d, a)
  = (bor d (pooled (ow_deny <$> held_overwrites overwrites ids)),
     bor a (pooled (ow_allow <$> held_overwrites overwrites ids))).
Proof.
  unfold held_overwrites.
  revert d a. induction ids as [| id ids IH]; intros d a Hd Ha; simpl.
  - by rewrite !bor_0_r.
  - destruct (Collection_get overwrites id) as [o |]; simpl.
    + rewrite IH by apply int32_bor. by rewrite !bor_assoc.
    + by apply IH.
Qed.

Lemma club_roles_loop_held P registry ids permissions :
  club_roles_loop P registry ids permissions
  = if existsb (is_administrator P) (held_roles registry ids) then all P
    else foldl bor permissions (allow ∘ role_permissions <$> held_roles registry ids).
Proof.
  unfold held_roles.
  revert permissions. induction ids as [| id ids IH]; intros permissions; simpl.
  - done.
  - destruct (Collection_get registry id) as [r |]; simpl; [| apply IH].
    unfold is_administrator at 1.
    destruct (nonzero _); simpl; [done | apply IH].
Qed.

Lemma Club_permissionsOf_resolved P club memberID m :
  resolve (members club) memberID = Some m ->
  Club_permissionsOf P club memberID = Club_permissionsOf P club (inl m).
Proof. unfold Club_permissionsOf. simpl. by intros ->. Qed.

Lemma Club_permissionsOf_owner P club memberID m :
  resolve (members club) memberID = Some m ->
  strict_eq (member_id m) (prop (club_props club) "ownerID") = true ->
  Club_permissionsOf P club memberID = Ok {| allow := all P |}.
Proof. unfold Club_permissionsOf. by intros -> ->. Qed.

Lemma Club_permissionsOf_roles P club memberID m everyone ids :
  resolve (members club) memberID = Some m ->
  strict_eq (member_id m) (prop (club_props club) "ownerID") = false ->
  roles club !! club_id club = Some everyone ->
  prop (member_props m) "roles" = JArr ids ->
  Club_permissionsOf P club memberID
  = Ok {| allow := club_mask P everyone (held_roles (roles club) ids) |}.
Proof.
  unfold Club_permissionsOf, club_mask, accumulated.
  intros -> -> -> ->. simpl.
  by rewrite club_roles_loop_held.
Qed.

Lemma ClubChannel_permissionsOf_administrator P club channel memberID base :
  Club_permissionsOf P club memberID = Ok base ->
  nonzero (band (allow base) (administrator P)) = true ->
  ClubChannel_permissionsOf P club channel memberID = Ok {| allow := all P |}.
Proof.
  intros Hbase Hadmin. unfold ClubChannel_permissionsOf.
  destruct (resolve (members club) memberID) as [m |] eqn:Hm.
  - rewrite <- (Club_permissionsOf_resolved P club memberID m Hm), Hbase.
    simpl. by rewrite Hadmin.
  - unfold Club_permissionsOf in Hbase. by rewrite Hm in Hbase.
Qed.

Lemma ClubChannel_permissionsOf_order P club channel memberID m ids base :
  resolve (members club) memberID = Some m ->
  prop (member_props m) "roles" = JArr ids ->
  Club_permissionsOf P club memberID = Ok base ->
  nonzero (band (allow base) (administrator P)) = false ->
  ClubChannel_permissionsOf P club channel memberID
  = Ok {| allow := resolution_order club channel (member_id m) ids (allow base) |}.
Proof.
  intros Hm Hids Hbase Hadmin. unfold ClubChannel_permissionsOf.
  rewrite Hm, <- (Club_permissionsOf_resolved P club memberID m Hm), Hbase.
  simpl. rewrite Hadmin, Hids. simpl.
  rewrite channel_roles_loop_pooled by apply int32_0.
  rewrite !bor_0_l by apply int32_pooled.
  done.
Qed.

Lemma held_roles_known registry ids :
  held_roles registry (known_ids registry ids) = held_roles registry ids.
Proof.
  unfold held_roles, known_ids.
  induction ids as [| id ids IH]; [done |].
  destruct (Collection_get registry id) as [r |] eqn:Hr.
  - rewrite filter_cons_True by (rewrite Hr; eauto).
    simpl. rewrite Hr. f_equal. exact IH.
  - rewrite filter_cons_False by (rewrite Hr; apply is_Some_None).
    simpl. rewrite Hr. exact IH.
Qed.

Lemma held_role_elem (registry : Collection Role) (ids : list JSValue) r role :
  JStr r ∈ ids -> registry !! r = Some role -> role ∈ held_roles registry ids.
Proof.
  intros Hin Hr. unfold held_roles.
  apply list_elem_of_omap. exists (JStr r). done.
Qed.

Lemma held_overwrite_elem (overwrites : Collection PermissionOverwrite)
    (ids : list JSValue) r o :
  JStr r ∈ ids -> overwrites !! r = Some o -> o ∈ held_overwrites overwrites ids.
Proof.
  intros Hin Hr. unfold held_overwrites.
  apply list_elem_of_omap. exists (JStr r). done.
Qed.

Lemma existsb_elem {A} (f : A -> bool) (l : list A) x :
  x ∈ l -> f x = true -> existsb f l = true.
Proof.
  intros Hin Hx. apply existsb_exists. exists x.
  split; [by apply list_elem_of_In | done].
Qed.

(** C1 (as amended).  For a member whose club-wide mask lacks the
    administrator bit, channel-scope [permissionsOf] returns the mask of
    the fixed order: the club-wide allow mask, then the overwrite of the
    club id, then the overwrites of the member's roles pooled and applied
    once, then the overwrite of the member id. *)
Theorem channel_resolution_order P club channel memberID m ids base :
  resolve (members club) memberID = Some m ->
  prop (member_props m) "roles" = JArr ids ->
  Club_permissionsOf P club memberID = Ok base ->
  nonzero (band (allow base) (administrator P)) = false ->
  ClubChannel_permissionsOf P club channel memberID
  = Ok {| allow := resolution_order club channel (member_id m) ids (allow base) |}.
Proof. apply ClubChannel_permissionsOf_order. Qed.

Lemma channel_resolution_order_witness :
  ClubChannel_permissionsOf sample_Permissions sample_club sample_private_channel
    (inr (JStr "3"))
  = Ok {| allow :=
            resolution_order sample_club sample_private_channel (JStr "3")
              [JStr "300"; JStr "999"; JStr "400"] 3072 |}.
Proof.
  apply (channel_resolution_order sample_Permissions sample_club
           sample_private_channel (inr (JStr "3")) sample_member
           [JStr "300"; JStr "999"; JStr "400"] {| allow := 3072 |});
    reflexivity.
Defined.

(** C1 as stated fails for an administrator: the club-wide mask of member
    ["2"] is the full mask, the channel denies bit 10 to everyone, the
    order of the claim yields the full mask without bit 10, and
    [permissionsOf] returns the full mask. *)
Lemma channel_resolution_order_counterexample :
  Club_permissionsOf sample_Permissions sample_club (inl sample_admin)
  = Ok {| allow := 2147483647 |}
  /\ resolution_order sample_club sample_channel (member_id sample_admin)
       [JStr "200"] 2147483647 = 2147482623
  /\ ClubChannel_permissionsOf sample_Permissions sample_club sample_channel
       (inl sample_admin)
     <> Ok {| allow :=
               resolution_order sample_club sample_channel (member_id sample_admin)
                 [JStr "200"] 2147483647 |}.
Proof. split; [reflexivity | split; [reflexivity | discriminate]]. Qed.

(** C2.  A member who holds a role whose allow mask has the administrator
    bit gets the full capability mask at club scope and on every channel,
    whatever the channel's overwrites deny. *)
Theorem administrator_short_circuit P club channel memberID m ids r admin everyone :
  resolve (members club) memberID = Some m ->
  prop (member_props m) "roles" = JArr ids ->
  JStr r ∈ ids ->
  roles club !! r = Some admin ->
  is_administrator P admin = true ->
  roles club !! club_id club = Some everyone ->
  nonzero (band (all P) (administrator P)) = true ->
  Club_permissionsOf P club memberID = Ok {| allow := all P |}
  /\ ClubChannel_permissionsOf P club channel memberID = Ok {| allow := all P |}.
Proof.
  intros Hm Hids Hin Hr Hadmin Heveryone Hall.
  assert (Club_permissionsOf P club memberID = Ok {| allow := all P |}) as Hclub.
  { destruct (strict_eq (member_id m) (prop (club_props club) "ownerID")) eqn:Howner.
    - by apply (Club_permissionsOf_owner P club memberID m).
    - rewrite (Club_permissionsOf_roles P club memberID m everyone ids) by done.
      unfold club_mask.
      by rewrite (existsb_elem _ _ admin (held_role_elem _ _ _ _ Hin Hr) Hadmin). }
  split; [done |].
  by apply (ClubChannel_permissionsOf_administrator P club channel memberID
              {| allow := all P |}).
Qed.

Lemma administrator_short_circuit_witness :
  Club_permissionsOf sample_Permissions sample_club (inr (JStr "2"))
  = Ok {| allow := 2147483647 |}
  /\ ClubChannel_permissionsOf sample_Permissions sample_club sample_channel
       (inr (JStr "2"))
     = Ok {| allow := 2147483647 |}.
Proof.
  apply (administrator_short_circuit sample_Permissions sample_club sample_channel
           (inr (JStr "2")) sample_admin [JStr "200"] "200" (role "200" 8)
           (role "100" 1024)); try reflexivity.
  apply list_elem_of_In. simpl. left. reflexivity.
Defined.

(** C3 (as amended).  Club-scope [permissionsOf] returns the full mask
    for the owner, whatever roles the owner holds.  For any other member it
    returns the allow mask of the everyone role OR-ed with the allow mask
    of every role the member holds, unless one of those roles has the
    administrator bit, in which case it returns the full mask.  No deny
    mask takes part. *)
Theorem club_resolution P club memberID m :
  resolve (members club) memberID = Some m ->
  (strict_eq (member_id m) (prop (club_props club) "ownerID") = true ->
   Club_permissionsOf P club memberID = Ok {| allow := all P |})
  /\ (strict_eq (member_id m) (prop (club_props club) "ownerID") = false ->
      forall everyone ids,
        roles club !! club_id club = Some everyone ->
        prop (member_props m) "roles" = JArr ids ->
        Club_permissionsOf P club memberID
        = Ok {| allow :=
                  if existsb (is_administrator P) (held_roles (roles club) ids)
                  then all P
                  else accumulated everyone (held_roles (roles club) ids) |}).
Proof.
  intros Hm. split.
  - intros Howner. by apply (Club_permissionsOf_owner P club memberID m).
  - intros Howner everyone ids Heveryone Hids.
    by apply (Club_permissionsOf_roles P club memberID m).
Qed.

Lemma club_resolution_witness :
  Club_permissionsOf sample_Permissions sample_club (inr (JStr "1"))
  = Ok {| allow := 2147483647 |}
  /\ Club_permissionsOf sample_Permissions sample_club (inr (JStr "3"))
     = Ok {| allow := 3072 |}.
Proof.
  split.
  - apply (proj1 (club_resolution sample_Permissions sample_club (inr (JStr "1"))
                    sample_owner eq_refl)).
    reflexivity.
  - apply (proj2 (club_resolution sample_Permissions sample_club (inr (JStr "3"))
                    sample_member eq_refl) eq_refl (role "100" 1024)
             [JStr "300"; JStr "999"; JStr "400"]);
      reflexivity.
Defined.

(** C3 as stated fails for a member who is not the owner and holds an
    administrator role: the everyone mask OR-ed with the masks of the roles
    of member ["2"] is 1032, and [permissionsOf] returns the full mask. *)
Lemma club_resolution_counterexample :
  strict_eq (member_id sample_admin) (prop (club_props sample_club) "ownerID") = false
  /\ accumulated (role "100" 1024) (held_roles (roles sample_club) [JStr "200"]) = 1032
  /\ Club_permissionsOf sample_Permissions sample_club (inl sample_admin)
     = Ok {| allow := 2147483647 |}.
Proof. repeat split. Qed.

(** C4 (as amended).  When a member holds two roles with overwrites on
    a channel, one denying capability C and the other allowing it, the
    pooled deny and the pooled allow both contain C, and the mask
    [permissionsOf] returns has C set, provided no overwrite for the member
    itself denies C without allowing it. *)
Theorem pooled_allow_wins P club channel memberID m ids base r1 r2 o1 o2 C :
  resolve (members club) memberID = Some m ->
  prop (member_props m) "roles" = JArr ids ->
  Club_permissionsOf P club memberID = Ok base ->
  JStr r1 ∈ ids -> permissionOverwrites channel !! r1 = Some o1 ->
  JStr r2 ∈ ids -> permissionOverwrites channel !! r2 = Some o2 ->
  0 <= C < 32 ->
  Z.testbit (all P) C = true ->
  Z.testbit (ow_deny o1) C = true ->
  Z.testbit (ow_allow o2) C = true ->
  (forall o, Collection_get (permissionOverwrites channel) (member_id m) = Some o ->
             Z.testbit (ow_deny o) C = true -> Z.testbit (ow_allow o) C = true) ->
  let held := held_overwrites (permissionOverwrites channel) ids in
  Z.testbit (pooled (ow_deny <$> held)) C = true
  /\ Z.testbit (pooled (ow_allow <$> held)) C = true
  /\ exists mask,
       ClubChannel_permissionsOf P club channel memberID = Ok {| allow := mask |}
       /\ Z.testbit mask C = true.
Proof.
  intros Hm Hids Hbase Hin1 Ho1 Hin2 Ho2 HC Hall Hdeny Hallow Hmember held.
  assert (Z.testbit (pooled (ow_deny <$> held)) C = true) as Hpd.
  { rewrite pooled_testbit by done.
    apply (existsb_elem _ _ (ow_deny o1)); [| done].
    apply list_elem_of_fmap_2. by apply (held_overwrite_elem _ _ r1). }
  assert (Z.testbit (pooled (ow_allow <$> held)) C = true) as Hpa.
  { rewrite pooled_testbit by done.
    apply (existsb_elem _ _ (ow_allow o2)); [| done].
    apply list_elem_of_fmap_2. by apply (held_overwrite_elem _ _ r2). }
  split; [done |]. split; [done |].
  destruct (nonzero (band (allow base) (administrator P))) eqn:Hadmin.
  - exists (all P). split; [| done].
    by apply (ClubChannel_permissionsOf_administrator P club channel memberID base).
  - eexists. split.
    + by apply (ClubChannel_permissionsOf_order P club channel memberID m ids base).
    + unfold resolution_order. fold held.
      destruct (Collection_get (permissionOverwrites channel) (member_id m))
        as [o |] eqn:Ho; simpl.
      * rewrite !apply_masks_testbit by done. rewrite Hpa, orb_true_r. simpl.
        destruct (Z.testbit (ow_deny o) C) eqn:Hd; simpl; [| done].
        by apply Hmember.
      * rewrite apply_masks_testbit by done. by rewrite Hpa, orb_true_r.
Qed.

Lemma pooled_allow_wins_witness :
  Z.testbit (pooled (ow_deny <$> held_overwrites (permissionOverwrites sample_channel)
                                   [JStr "300"; JStr "999"; JStr "400"])) 12 = true
  /\ Z.testbit (pooled (ow_allow <$> held_overwrites (permissionOverwrites sample_channel)
                                       [JStr "300"; JStr "999"; JStr "400"])) 12 = true
  /\ exists mask,
       ClubChannel_permissionsOf sample_Permissions sample_club sample_channel
         (inr (JStr "3")) = Ok {| allow := mask |}
       /\ Z.testbit mask 12 = true.
Proof.
  apply (pooled_allow_wins sample_Permissions sample_club sample_channel
           (inr (JStr "3")) sample_member [JStr "300"; JStr "999"; JStr "400"]
           {| allow := 3072 |} "300" "400"
           (overwrite "300" "role" 0 4096) (overwrite "400" "role" 4096 0) 12);
    try reflexivity.
  - apply list_elem_of_In. simpl. left. reflexivity.
  - apply list_elem_of_In. simpl. right. right. left. reflexivity.
  - lia.
  - intros o Ho. discriminate Ho.
Defined.

(** C4 as stated fails when the member has an overwrite of its own:
    member ["3"] holds role ["300"], which denies bit 12, and role ["400"],
    which allows it; the channel also denies bit 12 to the member, and the
    mask [permissionsOf] returns has bit 12 clear. *)
Lemma pooled_allow_wins_counterexample :
  prop (member_props sample_member) "roles" = JArr [JStr "300"; JStr "999"; JStr "400"]
  /\ ow_deny <$> permissionOverwrites sample_private_channel !! "300" = Some 4096
  /\ ow_allow <$> permissionOverwrites sample_private_channel !! "400" = Some 4096
  /\ ClubChannel_permissionsOf sample_Permissions sample_club sample_private_channel
       (inl sample_member) = Ok {| allow := 2048 |}
  /\ Z.testbit 2048 12 = false.
Proof. repeat split. Qed.

(** C10 (as amended).  For a member who is not the owner, club-scope
    [permissionsOf] never fails on a role id the registry does not know: it
    returns what the loop computes on the known ids alone, and when none of
    the known roles has the administrator bit that is the allow mask of the
    everyone role OR-ed with the allow masks of exactly the known roles. *)
Theorem unknown_roles_skipped P club memberID m everyone ids :
  resolve (members club) memberID = Some m ->
  strict_eq (member_id m) (prop (club_props club) "ownerID") = false ->
  roles club !! club_id club = Some everyone ->
  prop (member_props m) "roles" = JArr ids ->
  Club_permissionsOf P club memberID
  = Ok {| allow :=
            club_roles_loop P (roles club) (known_ids (roles club) ids)
              (allow (role_permissions everyone)) |}
  /\ (existsb (is_administrator P) (held_roles (roles club) ids) = false ->
      Club_permissionsOf P club memberID
      = Ok {| allow := accumulated everyone (held_roles (roles club) ids) |}).
Proof.
  intros Hm Howner Heveryone Hids.
  rewrite (Club_permissionsOf_roles P club memberID m everyone ids) by done.
  unfold club_mask, accumulated. split.
  - by rewrite club_roles_loop_held, held_roles_known.
  - by intros ->.
Qed.

Lemma unknown_roles_skipped_witness :
  Club_permissionsOf sample_Permissions sample_club (inr (JStr "3"))
  = Ok {| allow :=
            club_roles_loop sample_Permissions (roles sample_club)
              [JStr "300"; JStr "400"] 1024 |}
  /\ Club_permissionsOf sample_Permissions sample_club (inr (JStr "3"))
     = Ok {| allow := accumulated (role "100" 1024) [role "300" 2048; role "400" 0] |}.
Proof.
  destruct (unknown_roles_skipped sample_Permissions sample_club (inr (JStr "3"))
              sample_member (role "100" 1024) [JStr "300"; JStr "999"; JStr "400"]
              eq_refl eq_refl eq_refl eq_refl) as [Hknown Haccumulated].
  split; [exact Hknown | exact (Haccumulated eq_refl)].
Defined.

(** C10 as stated fails when a known role has the administrator bit:
    member ["2"] is not the owner, the everyone mask OR-ed with the mask of
    the one role it holds is 1032, and [permissionsOf] returns the full
    mask. *)
Lemma unknown_roles_skipped_counterexample :
  strict_eq (member_id sample_admin) (prop (club_props sample_club) "ownerID") = false
  /\ held_roles (roles sample_club) [JStr "200"] = [role "200" 8]
  /\ accumulated (role "100" 1024) [role "200" 8] = 1032
  /\ Club_permissionsOf sample_Permissions sample_club (inr (JStr "2"))
     <> Ok {| allow := 1032 |}.
Proof. split; [reflexivity |]. split; [reflexivity |]. split; [reflexivity | discriminate]. Qed.

(** ** Merges *)

Lemma prop_insert (o : JSObject) k v a :
  prop (<[k := v]> o) a = if decide (k = a) then v else prop o a.
Proof. unfold prop. rewrite lookup_insert. by case_decide. Qed.

Lemma prop_assign_with f field attr data this a :
  prop (assign_if_defined_with f field attr data this) a
  = if decide (attr = a)
    then match prop data field with JUndefined => prop this a | v => f v end
    else prop this a.
Proof.
  unfold assign_if_defined_with.
  destruct (prop data field); rewrite ?prop_insert; by case_decide.
Qed.

Lemma assign_all_cons f field attr table data this :
  assign_all ((f, field, attr) :: table) data this
  = assign_all table data (assign_if_defined_with f field attr data this).
Proof. reflexivity. Qed.

Lemma assign_all_other table data this a :
  a ∉ table.*2 -> prop (assign_all table data this) a = prop this a.
Proof.
  revert this.
  induction table as [| [[f field] attr] table IH]; intros this Hnot; [done |].
  simpl in Hnot. apply not_elem_of_cons in Hnot as [Hne Hnot].
  rewrite assign_all_cons, IH by done.
  rewrite prop_assign_with. by rewrite decide_False.
Qed.

Lemma assign_all_prop table data this f field attr :
  NoDup table.*2 -> (f, field, attr) ∈ table ->
  prop (assign_all table data this) attr
  = match prop data field with JUndefined => prop this attr | v => f v end.
Proof.
  revert this.
  induction table as [| [[f0 field0] attr0] table IH]; intros this Hnodup Hin.
  - by apply elem_of_nil in Hin.
  - simpl in Hnodup. apply NoDup_cons in Hnodup as [Hfresh Hnodup].
    rewrite assign_all_cons.
    apply elem_of_cons in Hin as [Heq | Hin].
    + injection Heq as -> -> ->.
      rewrite assign_all_other by done.
      rewrite prop_assign_with. by rewrite decide_True.
    + rewrite IH by done.
      rewrite prop_assign_with, decide_False; [done |].
      intros Heq. apply Hfresh.
      apply list_elem_of_fmap. by exists (f, field, attr).
Qed.


Lemma copied_elem fields field attr :
  (field, attr) ∈ fields -> (fun v : JSValue => v, field, attr) ∈ copied fields.
Proof.
  intros Hin. unfold copied.
  apply list_elem_of_fmap. by exists (field, attr).
Qed.


Lemma Member_update_props Date_parse Object_assign data club this :
  member_props (Member_update Date_parse Object_assign data club this).1
  = assign_all (Member_assignments Date_parse Object_assign) data (member_props this).
Proof.
  cbv [Member_update assign_if_defined member_props fst
       assign_all Member_assignments foldl].
  reflexivity.
Qed.

Lemma Member_update_user Date_parse Object_assign data club this :
  member_user (Member_update Date_parse Object_assign data club this).1 = member_user this.
Proof. reflexivity. Qed.

Lemma ClubChannel_assignments data this :
  assign_all (copied ClubChannel_fields) data (channel_props this)
  = assign_if_defined "parent_id" "parentID" data
      (assign_if_defined "position" "position" data
         (assign_if_defined "name" "name" data
            (assign_if_defined "type" "type" data (channel_props this)))).
Proof.
  cbv [assign_if_defined assign_all copied ClubChannel_fields fmap list_fmap foldl].
  reflexivity.
Qed.


Lemma ClubChannel_update_name data this :
  prop (assign_all (copied ClubChannel_fields) data (channel_props this)) "name"
  = merged_name data this.
Proof.
  rewrite (assign_all_prop _ data _ (fun v => v) "name" "name").
  - unfold merged_name, merge. by destruct (prop data "name").
  - apply (bool_decide_unpack _). vm_compute. exact I.
  - apply copied_elem. apply (bool_decide_unpack _). vm_compute. exact I.
Qed.

(** Line 44: the attribute [nsfw] after a merge that gets past the test of
    the name. *)
Lemma ClubChannel_update_nsfw data this matches :
  name_heuristic (merged_name data this) = Ok matches ->
  prop (channel_props (ClubChannel_update data this).1) "nsfw"
  = js_or (JBool matches) (prop data "nsfw").
Proof.
  intros Hname. rewrite <- ClubChannel_update_name in Hname.
  unfold ClubChannel_update. cbv zeta.
  rewrite <- ClubChannel_assignments, Hname.
  destruct (truthy _).
  - destruct (prop data "permission_overwrites");
      try (simpl; by rewrite prop_insert, decide_True).
    destruct (add_overwrites _ _). simpl. by rewrite prop_insert, decide_True.
  - simpl. by rewrite prop_insert, decide_True.
Qed.










Lemma prefix_length p s : String.prefix p s = true -> (String.length p <= String.length s)%nat.
Proof.
  revert p. induction s as [| c s IH]; intros [| c' p]; simpl; try lia; try discriminate.
  destruct (Ascii.ascii_dec c' c); [| discriminate].
  intros H. apply IH in H. lia.
Qed.

Lemma name_heuristic_nsfw s :
  s = "nsfw" \/ String.prefix "nsfw-" s = true -> name_heuristic (JStr s) = Ok true.
Proof.
  intros [-> | Hprefix]; [reflexivity |].
  simpl. pose proof (prefix_length _ _ Hprefix) as Hlen. simpl in Hlen.
  destruct (Nat.eqb_spec (String.length s) 4) as [Heq | _]; [lia |].
  by rewrite Hprefix.
Qed.

(** The first three cases of the NSFW derivation: after a merge into a
    channel whose name is then the string [s], the attribute [nsfw] is
    [true] when [s] is ["nsfw"], when [s] starts with ["nsfw-"], and
    when the payload carries [nsfw: true]. *)
Theorem nsfw_derivation data channel s :
  merged_name data channel = JStr s ->
  s = "nsfw" \/ String.prefix "nsfw-" s = true \/ prop data "nsfw" = JBool true ->
  prop (channel_props (ClubChannel_update data channel).1) "nsfw" = JBool true.
Proof.
  intros Hname Hcases.
  destruct (name_heuristic (JStr s)) as [matches |] eqn:Hmatches; [| discriminate].
  rewrite (ClubChannel_update_nsfw data channel matches) by by rewrite Hname.
  destruct Hcases as [Hs | [Hs | Hflag]].
  - rewrite name_heuristic_nsfw in Hmatches by auto. by injection Hmatches as <-.
  - rewrite name_heuristic_nsfw in Hmatches by auto. by injection Hmatches as <-.
  - rewrite Hflag. by destruct matches.
Qed.

Lemma nsfw_derivation_witness :
  prop (channel_props (ClubChannel_update sample_flag_off sample_private_channel).1)
    "nsfw" = JBool true.
Proof.
  apply (nsfw_derivation sample_flag_off sample_private_channel "nsfw");
    [reflexivity | left; reflexivity].
Defined.

(** C6 (the case the code misses).  After a merge into a channel whose
    name is then a string that matches neither pattern, with the flag
    absent from the payload, the attribute [nsfw] is [undefined], not
    [false]. *)
Theorem nsfw_absent_flag_undefined data channel s :
  merged_name data channel = JStr s ->
  name_heuristic (JStr s) = Ok false ->
  prop data "nsfw" = JUndefined ->
  prop (channel_props (ClubChannel_update data channel).1) "nsfw" = JUndefined
  /\ prop (channel_props (ClubChannel_update data channel).1) "nsfw" <> JBool false.
Proof.
  intros Hname Hmatches Hflag.
  rewrite (ClubChannel_update_nsfw data channel false) by by rewrite Hname.
  rewrite Hflag. by split.
Qed.

Lemma nsfw_absent_flag_undefined_witness :
  prop (channel_props (ClubChannel_update sample_rename sample_channel).1) "nsfw"
  = JUndefined
  /\ prop (channel_props (ClubChannel_update sample_rename sample_channel).1) "nsfw"
     <> JBool false.
Proof.
  apply (nsfw_absent_flag_undefined sample_rename sample_channel "lobby"); reflexivity.
Defined.

(** C7 (what the code does instead).  A merge whose payload carries
    neither a name nor the flag, into a channel whose name matches neither
    pattern, leaves the attribute [nsfw] [undefined], whatever it was
    before; a [true] forced by an earlier flag is lost. *)
Theorem nsfw_cleared_by_absent_flag data channel s :
  prop data "name" = JUndefined ->
  prop data "nsfw" = JUndefined ->
  prop (channel_props channel) "name" = JStr s ->
  name_heuristic (JStr s) = Ok false ->
  prop (channel_props channel) "nsfw" = JBool true ->
  prop (channel_props (ClubChannel_update data channel).1) "nsfw" = JUndefined
  /\ prop (channel_props (ClubChannel_update data channel).1) "nsfw"
     <> prop (channel_props channel) "nsfw".
Proof.
  intros Hname Hflag Hs Hmatches Hbefore.
  rewrite (ClubChannel_update_nsfw data channel false).
  - rewrite Hflag, Hbefore. by split.
  - unfold merged_name. by rewrite Hname, Hs.
Qed.

Lemma nsfw_cleared_by_absent_flag_witness :
  prop (channel_props (ClubChannel_update sample_move sample_channel).1) "nsfw"
  = JUndefined
  /\ prop (channel_props (ClubChannel_update sample_move sample_channel).1) "nsfw"
     <> prop (channel_props sample_channel) "nsfw".
Proof.
  apply (nsfw_cleared_by_absent_flag sample_move sample_channel "general"); reflexivity.
Defined.

(** ** Voice state *)

(** C8.  For a member with a voice state in the registry of its club,
    merging a payload whose channel id is null and whose mute, deaf and
    suppress are false removes that voice state from the registry, and the
    getter [voiceState] then returns the detached all-default voice state
    keyed by the member's id. *)
Theorem voice_state_cleanup Date_parse Object_assign data club m state :
  Collection_get (voiceStates club) (member_id m) = Some state ->
  data !! "channel_id" = Some JNull ->
  data !! "mute" = Some (JBool false) ->
  data !! "deaf" = Some (JBool false) ->
  data !! "suppress" = Some (JBool false) ->
  exists m' club',
    Member_update Date_parse Object_assign data (Some club) m = (m', Some club')
    /\ member_id m' = member_id m
    /\ Collection_get (voiceStates club') (member_id m) = None
    /\ Member_voiceState (Some club') m' = VoiceState_new (member_id m).
Proof.
  intros Hstate Hchannel Hmute Hdeaf Hsuppress.
  destruct (member_id m) as [| | | | k | |] eqn:Hid; try discriminate Hstate.
  assert (hasOwnProperty data "mute" = true) as Hown.
  { unfold hasOwnProperty. rewrite Hmute. by apply bool_decide_eq_true_2. }
  assert (update_voice data (JStr k) (voiceStates club) = delete k (voiceStates club))
    as Hvoice.
  { unfold update_voice, prop. by rewrite Hchannel, Hmute, Hdeaf, Hsuppress. }
  unfold Member_update. rewrite Hown.
  eexists _, _. split; [reflexivity |].
  unfold Member_voiceState, Collection_has. simpl.
  rewrite Hid, Hvoice. simpl.
  rewrite lookup_delete_eq. split; [done |]. split; [done |].
  by rewrite bool_decide_eq_false_2 by apply is_Some_None.
Qed.

Lemma voice_state_cleanup_witness :
  exists m' club',
    Member_update (fun v => v) (fun target source => target) sample_disconnect
      (Some sample_club) sample_member = (m', Some club')
    /\ member_id m' = JStr "3"
    /\ Collection_get (voiceStates club') (JStr "3") = None
    /\ Member_voiceState (Some club') m' = VoiceState_new (JStr "3").
Proof.
  apply (voice_state_cleanup (fun v => v) (fun target source => target)
           sample_disconnect sample_club sample_member sample_voice);
    reflexivity.
Defined.

(** ** Construction of a member *)

Lemma Collection_add_User_truthy users payload :
  truthy payload = true ->
  exists user users', Collection_add_User users payload = Ok (user, users').
Proof.
  intros Hpayload. unfold Collection_add_User.
  destruct payload; try discriminate Hpayload; simpl;
    repeat case_match; eauto.
Qed.

(** C9 (as amended).  Constructing a member of a club from a payload
    with no embedded user, when the user registry holds no user under the
    payload's id, raises an error: the explicit one when the payload has an
    id.  A member constructed with a club never has a null user. *)
Theorem member_construction Date_parse Object_assign data club users :
  (Collection_get users (prop data "id") = None ->
   truthy (prop data "user") = false ->
   (exists e, Member_new Date_parse Object_assign data (Some club) users = Throw e)
   /\ (truthy (prop data "id") = true ->
       Member_new Date_parse Object_assign data (Some club) users
       = Throw (Error "User associated with Member not found: " (prop data "id"))))
  /\ (forall m users' club',
        Member_new Date_parse Object_assign data (Some club) users = Ok (m, users', club') ->
        member_user m <> None).
Proof.
  split.
  - intros Hcache Huser. unfold Member_new. rewrite Huser.
    destruct (truthy (prop data "id")) eqn:Hid; simpl.
    + rewrite Hcache, Huser. split; [eauto | done].
    + split; [| done].
      destruct (get_field (prop data "user") "id"); simpl; [| eauto].
      rewrite Hcache, Huser. eauto.
  - intros m users' club'. unfold Member_new.
    destruct (if truthy (prop data "id") then _ else _) as [id |]; simpl; [| done].
    destruct (if negb _ && _ then _ else _) as [data' |]; simpl; [| done].
    destruct (Collection_get users (prop data' "id")) as [user |]; simpl.
    + intros [= <- _ _]. done.
    + destruct (truthy (prop data' "user")) eqn:Huser; simpl; [| done].
      destruct (Collection_add_User_truthy users _ Huser) as (user & users1 & ->).
      simpl. intros [= <- _ _]. done.
Qed.

Lemma member_construction_witness :
  Member_new (fun v => v) (fun target source => target) sample_orphan
    (Some sample_club) ∅
  = Throw (Error "User associated with Member not found: " (JStr "42")).
Proof.
  apply (proj1 (member_construction (fun v => v) (fun target source => target)
                  sample_orphan sample_club ∅));
    reflexivity.
Defined.

(** C9 as stated fails for a member constructed without a club: the
    payload has an id and no embedded user, nothing is cached, and the
    constructor returns a member whose user is null. *)
Lemma member_construction_counterexample :
  Collection_get (∅ : Collection User) (prop sample_orphan "id") = None
  /\ prop sample_orphan "user" = JUndefined
  /\ Member_new (fun v => v) (fun target source => target) sample_orphan None ∅
     = Ok ({| member_id := JStr "42"; member_user := None;
              member_props :=
                <["roles" := JArr []]> (<["nick" := JNull]> (<["game" := JNull]> ∅)) |},
           ∅, None).
Proof. split; [reflexivity |]. split; reflexivity. Qed.

(** * Further properties *)

(** ** More bitwise arithmetic *)

Lemma int32_eq_bits a b :
  int32 a -> int32 b ->
  (forall i, 0 <= i < 32 -> Z.testbit a i = Z.testbit b i) -> a = b.
Proof.
  intros Ha Hb Hbits.
  assert (a mod 2 ^ 32 = b mod 2 ^ 32) as Hmod.
  { apply Z.bits_inj'. intros n Hn.
    destruct (Z_lt_le_dec n 32) as [Hlt | Hge].
    - rewrite !Z.mod_pow2_bits_low by lia. apply Hbits. lia.
    - rewrite !Z.mod_pow2_bits_high by lia. done. }
  unfold int32 in Ha, Hb. revert Hmod.
  change (2 ^ 32) with 4294967296. change (2 ^ 31) with 2147483648 in Ha, Hb.
  intros Hmod. Z.div_mod_to_equations. lia.
Qed.

Lemma nonzero_bits x :
  int32 x -> nonzero x = true <-> exists i, 0 <= i < 32 /\ Z.testbit x i = true.
Proof.
  intros Hx. unfold nonzero. rewrite negb_true_iff, Z.eqb_neq. split.
  - intros Hne.
    destruct (existsb (Z.testbit x) (seqZ 0 32)) eqn:Hsome.
    + apply existsb_exists in Hsome as (i & Hin & Hbit).
      apply list_elem_of_In, elem_of_seqZ in Hin. exists i. split; [lia | done].
    + destruct Hne. apply int32_eq_bits; [done | apply int32_0 |].
      intros i Hi. rewrite Z.bits_0.
      destruct (Z.testbit x i) eqn:Hbit; [| done].
      rewrite (existsb_elem _ _ i) in Hsome; [done | | done].
      apply elem_of_seqZ. lia.
  - intros (i & Hi & Hbit) ->. by rewrite Z.bits_0 in Hbit.
Qed.

Lemma existsb_fmap {A B} (f : B -> bool) (g : A -> B) (l : list A) :
  existsb f (g <$> l) = existsb (f ∘ g) l.
Proof. induction l as [| x l IH]; simpl; [done | f_equal; exact IH]. Qed.

Lemma existsb_same_elements {A} (f : A -> bool) (l l' : list A) :
  (forall x, x ∈ l <-> x ∈ l') -> existsb f l = existsb f l'.
Proof.
  intros Hsame. apply eq_true_iff_eq. rewrite !existsb_exists.
  split; intros (x & Hin & Hx); exists x; split; try done;
    apply list_elem_of_In, Hsame, list_elem_of_In, Hin.
Qed.

Lemma pooled_same_elements masks masks' :
  (forall x, x ∈ masks <-> x ∈ masks') -> pooled masks = pooled masks'.
Proof.
  intros Hsame. apply int32_eq_bits; try apply int32_pooled.
  intros i Hi. rewrite !pooled_testbit by done.
  by apply existsb_same_elements.
Qed.

Lemma foldl_bor_cons z x masks :
  foldl bor z (x :: masks) = bor z (pooled (x :: masks)).
Proof.
  simpl. rewrite foldl_bor_pooled by apply int32_bor. apply bor_assoc.
Qed.

Lemma foldl_bor_same_elements z masks masks' :
  (forall x, x ∈ masks <-> x ∈ masks') -> foldl bor z masks = foldl bor z masks'.
Proof.
  intros Hsame.
  destruct masks as [| x masks], masks' as [| x' masks'].
  - done.
  - exfalso. eapply not_elem_of_nil, Hsame, list_elem_of_here.
  - exfalso. eapply not_elem_of_nil, Hsame, list_elem_of_here.
  - rewrite !foldl_bor_cons. f_equal. by apply pooled_same_elements.
Qed.

Lemma foldl_bor_testbit z masks i :
  0 <= i < 32 ->
  Z.testbit (foldl bor z masks) i
  = Z.testbit z i || existsb (fun m => Z.testbit m i) masks.
Proof.
  intros Hi. revert z. induction masks as [| m masks IH]; intros z; simpl.
  - by rewrite orb_false_r.
  - by rewrite IH, bor_testbit, orb_assoc.
Qed.

Lemma apply_overwrite_testbit p o i :
  0 <= i < 32 ->
  Z.testbit (apply_overwrite p o) i
  = allows o i || negb (denies o i) && Z.testbit p i.
Proof.
  intros Hi. destruct o as [o |]; simpl; [| done].
  rewrite apply_masks_testbit by done.
  by destruct (Z.testbit p i), (Z.testbit (ow_deny o) i), (Z.testbit (ow_allow o) i).
Qed.

Lemma omap_same_elements {A B} (f : A -> option B) (l l' : list A) :
  (forall x, x ∈ l <-> x ∈ l') -> forall y, y ∈ omap f l <-> y ∈ omap f l'.
Proof.
  intros Hsame y. rewrite !list_elem_of_omap.
  split; intros (x & Hin & Hx); exists x; split; try done; by apply Hsame.
Qed.

Lemma fmap_same_elements {A B} (f : A -> B) (l l' : list A) :
  (forall x, x ∈ l <-> x ∈ l') -> forall y, y ∈ f <$> l <-> y ∈ f <$> l'.
Proof.
  intros Hsame y. rewrite !list_elem_of_fmap.
  split; intros (x & Hx & Hin); exists x; split; try done; by apply Hsame.
Qed.

(** ** More on the two resolvers *)

(** X1.  For a member whose role list is an array, club-scope
    [permissionsOf] fails in one case only: the member is not the owner and
    the everyone role is not registered; the owner is resolved without the
    role registry being read. *)
Theorem club_resolution_failure P club memberID m ids :
  resolve (members club) memberID = Some m ->
  prop (member_props m) "roles" = JArr ids ->
  (Club_permissionsOf P club memberID = Throw TypeError
   <-> strict_eq (member_id m) (prop (club_props club) "ownerID") = false
       /\ roles club !! club_id club = None)
  /\ (forall e, Club_permissionsOf P club memberID = Throw e -> e = TypeError).
Proof.
  intros Hm Hids. unfold Club_permissionsOf. rewrite Hm.
  destruct (strict_eq _ _); [split; [split; [done | by intros [? _]] | done] |].
  destruct (roles club !! club_id club); rewrite ?Hids; simpl.
  - split; [split; [done | by intros [_ ?]] | done].
  - split; [done | by intros e [= <-]].
Qed.

Lemma club_resolution_failure_witness :
  Club_permissionsOf sample_Permissions sample_open_club (inr (JStr "4"))
  <> Throw TypeError.
Proof.
  intros Hthrow.
  apply (proj1 (club_resolution_failure sample_Permissions sample_open_club
                  (inr (JStr "4")) (member "4" []) [] eq_refl eq_refl)) in Hthrow.
  destruct Hthrow as [_ Hmissing]. discriminate Hmissing.
Defined.

Lemma ClubChannel_permissionsOf_on_registry P club channel memberID :
  ClubChannel_permissionsOf_on P club (Some (permissionOverwrites channel)) memberID
  = ClubChannel_permissionsOf P club channel memberID.
Proof. reflexivity. Qed.

(** X2.  When channel-scope [permissionsOf] fails.  For members whose
    role list is an array it throws in two cases only: club-scope
    [permissionsOf] throws, and the exception is that one; or club scope
    returns a mask without the administrator bit and the channel has no
    registry of overwrites, no payload having carried any, and line 122
    throws a TypeError.  A mask with the administrator bit is resolved on
    such a channel too. *)
Theorem channel_resolution_failure P club registry memberID e :
  (forall m, resolve (members club) memberID = Some m ->
             exists ids, prop (member_props m) "roles" = JArr ids) ->
  ClubChannel_permissionsOf_on P club registry memberID = Throw e
  <-> Club_permissionsOf P club memberID = Throw e
      \/ (e = TypeError
          /\ registry = None
          /\ exists base,
               Club_permissionsOf P club memberID = Ok base
               /\ nonzero (band (allow base) (administrator P)) = false).
Proof.
  intros Hroles. unfold ClubChannel_permissionsOf_on.
  destruct (resolve (members club) memberID) as [m |] eqn:Hm.
  - rewrite <- (Club_permissionsOf_resolved P club memberID m Hm).
    destruct (Hroles m eq_refl) as [ids Hids].
    destruct (Club_permissionsOf P club memberID) as [base | e0]; simpl.
    + destruct (nonzero (band (allow base) (administrator P))) eqn:Hadmin.
      * split; [done |]. intros [Hthrow | (_ & _ & base' & [= <-] & Hnot)]; [done |].
        congruence.
      * destruct registry as [overwrites |].
        -- rewrite Hids. simpl. destruct (channel_roles_loop _ _ _).
           split; [done |]. by intros [Hthrow | (_ & Hnone & _)].
        -- split.
           ++ intros [= <-]. right. eauto.
           ++ intros [Hthrow | (-> & _)]; done.
    + split; [by left |]. by intros [Hthrow | (_ & _ & base & Hbase & _)].
  - assert (Club_permissionsOf P club memberID = Throw TypeError) as ->.
    { unfold Club_permissionsOf. by rewrite Hm. }
    assert (Club_permissionsOf P club (inr JUndefined) = Throw TypeError) as ->.
    { done. }
    simpl. split; [by left |]. by intros [Hthrow | (_ & _ & base & Hbase & _)].
Qed.

Lemma channel_resolution_failure_witness :
  Club_permissionsOf sample_Permissions sample_club (inr (JStr "3"))
  = Ok {| allow := 3072 |}
  /\ ClubChannel_permissionsOf_on sample_Permissions sample_club None (inr (JStr "3"))
     = Throw TypeError
  /\ ClubChannel_permissionsOf_on sample_Permissions sample_club None (inr (JStr "77"))
     = Throw TypeError.
Proof.
  split; [reflexivity |]. split.
  - apply (channel_resolution_failure sample_Permissions sample_club None
             (inr (JStr "3")) TypeError).
    + intros m Hm. vm_compute in Hm. injection Hm as <-.
      exists [JStr "300"; JStr "999"; JStr "400"]. reflexivity.
    + right. split; [reflexivity |]. split; [reflexivity |].
      exists {| allow := 3072 |}. split; reflexivity.
  - apply (channel_resolution_failure sample_Permissions sample_club None
             (inr (JStr "77")) TypeError).
    + intros m Hm. discriminate Hm.
    + left. reflexivity.
Defined.

Lemma channel_precedence_bits_aux P club channel memberID m ids base i :
  resolve (members club) memberID = Some m ->
  prop (member_props m) "roles" = JArr ids ->
  Club_permissionsOf P club memberID = Ok base ->
  nonzero (band (allow base) (administrator P)) = false ->
  0 <= i < 32 ->
  let overwrites := permissionOverwrites channel in
  let own := Collection_get overwrites (member_id m) in
  let held := held_overwrites overwrites ids in
  let everyone := overwrites !! club_id club in
  exists mask,
    ClubChannel_permissionsOf P club channel memberID = Ok {| allow := mask |}
    /\ Z.testbit mask i
       = allows own i
         || negb (denies own i)
            && (existsb (fun o => Z.testbit (ow_allow o) i) held
                || negb (existsb (fun o => Z.testbit (ow_deny o) i) held)
                   && (allows everyone i
                       || negb (denies everyone i) && Z.testbit (allow base) i)).
Proof.
  intros Hm Hids Hbase Hadmin Hi overwrites own held everyone.
  eexists. split.
  - by apply (ClubChannel_permissionsOf_order P club channel memberID m ids base).
  - unfold resolution_order.
    rewrite apply_overwrite_testbit, apply_masks_testbit by done.
    rewrite !pooled_testbit, !existsb_fmap, apply_overwrite_testbit by done.
    fold overwrites own held everyone.
    change ((fun m0 => Z.testbit m0 i) ∘ ow_allow)
      with (fun o => Z.testbit (ow_allow o) i).
    change ((fun m0 => Z.testbit m0 i) ∘ ow_deny)
      with (fun o => Z.testbit (ow_deny o) i).
    by destruct (allows own i), (denies own i),
         (existsb (fun o => Z.testbit (ow_allow o) i) held),
         (existsb (fun o => Z.testbit (ow_deny o) i) held),
         (allows everyone i), (denies everyone i), (Z.testbit (allow base) i).
Qed.

(** X3.  Precedence, bit by bit.  For a member without the
    administrator bit, a capability is granted on a channel when the
    member's own overwrite allows it, or else when that overwrite does not
    deny it and: some role overwrite allows it, or else no role overwrite
    denies it and: the everyone overwrite allows it, or else that overwrite
    does not deny it and the club-wide mask has it. *)
Theorem channel_precedence P club channel memberID m ids base i :
  resolve (members club) memberID = Some m ->
  prop (member_props m) "roles" = JArr ids ->
  Club_permissionsOf P club memberID = Ok base ->
  nonzero (band (allow base) (administrator P)) = false ->
  0 <= i < 32 ->
  let overwrites := permissionOverwrites channel in
  let own := Collection_get overwrites (member_id m) in
  let held := held_overwrites overwrites ids in
  let everyone := overwrites !! club_id club in
  exists mask,
    ClubChannel_permissionsOf P club channel memberID = Ok {| allow := mask |}
    /\ Z.testbit mask i
       = allows own i
         || negb (denies own i)
            && (existsb (fun o => Z.testbit (ow_allow o) i) held
                || negb (existsb (fun o => Z.testbit (ow_deny o) i) held)
                   && (allows everyone i
                       || negb (denies everyone i) && Z.testbit (allow base) i)).
Proof.
  intros Hm Hids Hbase Hadmin Hi.
  by apply channel_precedence_bits_aux.
Qed.

Lemma channel_precedence_witness :
  exists mask,
    ClubChannel_permissionsOf sample_Permissions sample_club sample_private_channel
      (inr (JStr "3")) = Ok {| allow := mask |}
    /\ Z.testbit mask 12 = false.
Proof.
  destruct (channel_precedence sample_Permissions sample_club sample_private_channel
              (inr (JStr "3")) sample_member [JStr "300"; JStr "999"; JStr "400"]
              {| allow := 3072 |} 12 eq_refl eq_refl eq_refl eq_refl
              ltac:(lia)) as (mask & Hmask & Hbit).
  exists mask. split; [exact Hmask | exact Hbit].
Defined.

(** X4.  The member's own overwrite has the last word.  For a member
    without the administrator bit, a capability the member overwrite allows
    is granted and one it denies without allowing is refused, whatever the
    club-wide mask, the everyone overwrite and the role overwrites say. *)
Theorem member_overwrite_decides P club channel memberID m ids base own i :
  resolve (members club) memberID = Some m ->
  prop (member_props m) "roles" = JArr ids ->
  Club_permissionsOf P club memberID = Ok base ->
  nonzero (band (allow base) (administrator P)) = false ->
  0 <= i < 32 ->
  Collection_get (permissionOverwrites channel) (member_id m) = Some own ->
  exists mask,
    ClubChannel_permissionsOf P club channel memberID = Ok {| allow := mask |}
    /\ (Z.testbit (ow_allow own) i = true -> Z.testbit mask i = true)
    /\ (Z.testbit (ow_allow own) i = false -> Z.testbit (ow_deny own) i = true ->
        Z.testbit mask i = false).
Proof.
  intros Hm Hids Hbase Hadmin Hi Hown.
  destruct (channel_precedence_bits_aux P club channel memberID m ids base i
              Hm Hids Hbase Hadmin Hi) as (mask & Hmask & Hbit).
  exists mask. split; [done |].
  rewrite Hown in Hbit. simpl in Hbit. rewrite Hbit.
  split.
  - by intros ->.
  - by intros -> ->.
Qed.

Lemma member_overwrite_decides_witness :
  exists mask,
    ClubChannel_permissionsOf sample_Permissions sample_club sample_private_channel
      (inl sample_member) = Ok {| allow := mask |}
    /\ Z.testbit mask 12 = false.
Proof.
  destruct (member_overwrite_decides sample_Permissions sample_club
              sample_private_channel (inl sample_member) sample_member
              [JStr "300"; JStr "999"; JStr "400"] {| allow := 3072 |}
              (overwrite "3" "member" 0 4096) 12 eq_refl eq_refl eq_refl eq_refl
              ltac:(lia) eq_refl) as (mask & Hmask & _ & Hdenied).
  exists mask. split; [exact Hmask | exact (Hdenied eq_refl eq_refl)].
Defined.

Lemma Club_permissionsOf_role_set P club m m' ids ids' :
  member_id m = member_id m' ->
  prop (member_props m) "roles" = JArr ids ->
  prop (member_props m') "roles" = JArr ids' ->
  (forall id, id ∈ ids <-> id ∈ ids') ->
  Club_permissionsOf P club (inl m) = Club_permissionsOf P club (inl m').
Proof.
  intros Hid Hids Hids' Hsame. unfold Club_permissionsOf. simpl.
  rewrite <- Hid. destruct (strict_eq _ _); [done |].
  destruct (roles club !! club_id club) as [everyone |]; [| done].
  rewrite Hids, Hids'. simpl. rewrite !club_roles_loop_held.
  pose proof (omap_same_elements (Collection_get (roles club)) ids ids' Hsame) as Hheld.
  fold (held_roles (roles club) ids) (held_roles (roles club) ids') in Hheld.
  rewrite (existsb_same_elements _ _ _ Hheld).
  by rewrite (foldl_bor_same_elements _ _ _ (fmap_same_elements _ _ _ Hheld)).
Qed.

Lemma ClubChannel_permissionsOf_role_set P club channel m m' ids ids' :
  member_id m = member_id m' ->
  prop (member_props m) "roles" = JArr ids ->
  prop (member_props m') "roles" = JArr ids' ->
  (forall id, id ∈ ids <-> id ∈ ids') ->
  ClubChannel_permissionsOf P club channel (inl m)
  = ClubChannel_permissionsOf P club channel (inl m').
Proof.
  intros Hid Hids Hids' Hsame. unfold ClubChannel_permissionsOf. simpl.
  rewrite (Club_permissionsOf_role_set P club m m' ids ids') by done.
  destruct (Club_permissionsOf P club (inl m')) as [base |]; simpl; [| done].
  destruct (nonzero _); [done |].
  rewrite Hids, Hids', <- Hid. simpl.
  rewrite !channel_roles_loop_pooled by apply int32_0.
  pose proof (omap_same_elements (Collection_get (permissionOverwrites channel))
                ids ids' Hsame) as Hheld.
  fold (held_overwrites (permissionOverwrites channel) ids)
       (held_overwrites (permissionOverwrites channel) ids') in Hheld.
  rewrite (pooled_same_elements _ _ (fmap_same_elements ow_deny _ _ Hheld)).
  by rewrite (pooled_same_elements _ _ (fmap_same_elements ow_allow _ _ Hheld)).
Qed.

(** X5.  Club-scope [permissionsOf] depends on which roles a member
    holds, not on the order of the role list nor on how often an id occurs
    in it: two members with the same id whose role lists have the same
    elements resolve to the same result. *)
Theorem club_resolution_role_set P club m m' ids ids' :
  member_id m = member_id m' ->
  prop (member_props m) "roles" = JArr ids ->
  prop (member_props m') "roles" = JArr ids' ->
  (forall id, id ∈ ids <-> id ∈ ids') ->
  Club_permissionsOf P club (inl m) = Club_permissionsOf P club (inl m').
Proof. apply Club_permissionsOf_role_set. Qed.

Lemma sample_shuffled_same_elements id :
  id ∈ [JStr "300"; JStr "999"; JStr "400"]
  <-> id ∈ [JStr "400"; JStr "300"; JStr "400"; JStr "999"].
Proof.
  rewrite !elem_of_cons, !elem_of_nil. tauto.
Defined.

Lemma club_resolution_role_set_witness :
  Club_permissionsOf sample_Permissions sample_club (inl sample_member)
  = Club_permissionsOf sample_Permissions sample_club (inl sample_member_shuffled).
Proof.
  apply (club_resolution_role_set sample_Permissions sample_club sample_member
           sample_member_shuffled [JStr "300"; JStr "999"; JStr "400"]
           [JStr "400"; JStr "300"; JStr "400"; JStr "999"]);
    try reflexivity.
  apply sample_shuffled_same_elements.
Defined.

(** X6.  Channel-scope [permissionsOf] does not depend on the order of
    the role list either, nor on repeated ids: the role overwrites are
    pooled, so two members with the same id whose role lists have the same
    elements get the same result on every channel. *)
Theorem channel_resolution_role_set P club channel m m' ids ids' :
  member_id m = member_id m' ->
  prop (member_props m) "roles" = JArr ids ->
  prop (member_props m') "roles" = JArr ids' ->
  (forall id, id ∈ ids <-> id ∈ ids') ->
  ClubChannel_permissionsOf P club channel (inl m)
  = ClubChannel_permissionsOf P club channel (inl m').
Proof. apply ClubChannel_permissionsOf_role_set. Qed.

Lemma channel_resolution_role_set_witness :
  ClubChannel_permissionsOf sample_Permissions sample_club sample_private_channel
    (inl sample_member)
  = ClubChannel_permissionsOf sample_Permissions sample_club sample_private_channel
      (inl sample_member_shuffled).
Proof.
  apply (channel_resolution_role_set sample_Permissions sample_club
           sample_private_channel sample_member sample_member_shuffled
           [JStr "300"; JStr "999"; JStr "400"]
           [JStr "400"; JStr "300"; JStr "400"; JStr "999"]);
    try reflexivity.
  apply sample_shuffled_same_elements.
Defined.

Lemma omap_none {A B} (f : A -> option B) (l : list A) :
  (forall x, x ∈ l -> f x = None) -> omap f l = [].
Proof.
  induction l as [| x l IH]; intros Hnone; simpl; [done |].
  rewrite (Hnone x) by apply list_elem_of_here.
  apply IH. intros y Hy. apply Hnone. by apply list_elem_of_further.
Qed.

Lemma apply_masks_nothing p : apply_masks p 0 0 = to_int32 p.
Proof.
  unfold apply_masks, bor, band, bnot.
  change (to_int32 0) with 0. change (Z.lnot 0) with (-1).
  change (to_int32 (-1)) with (-1).
  rewrite Z.land_m1_r, Z.lor_0_r.
  apply to_int32_small, to_int32_range.
Qed.

Lemma channel_without_overwrites_aux P club channel memberID m ids base :
  resolve (members club) memberID = Some m ->
  prop (member_props m) "roles" = JArr ids ->
  Club_permissionsOf P club memberID = Ok base ->
  nonzero (band (allow base) (administrator P)) = false ->
  permissionOverwrites channel !! club_id club = None ->
  (forall id, id ∈ ids -> Collection_get (permissionOverwrites channel) id = None) ->
  Collection_get (permissionOverwrites channel) (member_id m) = None ->
  ClubChannel_permissionsOf P club channel memberID
  = Ok {| allow := to_int32 (allow base) |}.
Proof.
  intros Hm Hids Hbase Hadmin Heveryone Hroles Hown.
  rewrite (ClubChannel_permissionsOf_order P club channel memberID m ids base) by done.
  unfold resolution_order, held_overwrites.
  rewrite Heveryone, Hown, (omap_none _ _ Hroles). simpl.
  by rewrite apply_masks_nothing.
Qed.

(** X7.  On a channel where no overwrite applies to a member (none for
    the club id, none for a role the member holds, none for the member id),
    a member without the administrator bit gets the club-wide mask, as the
    signed 32-bit number the bitwise operators leave. *)
Theorem channel_without_overwrites P club channel memberID m ids base :
  resolve (members club) memberID = Some m ->
  prop (member_props m) "roles" = JArr ids ->
  Club_permissionsOf P club memberID = Ok base ->
  nonzero (band (allow base) (administrator P)) = false ->
  permissionOverwrites channel !! club_id club = None ->
  (forall id, id ∈ ids -> Collection_get (permissionOverwrites channel) id = None) ->
  Collection_get (permissionOverwrites channel) (member_id m) = None ->
  ClubChannel_permissionsOf P club channel memberID
  = Ok {| allow := to_int32 (allow base) |}.
Proof. apply channel_without_overwrites_aux. Qed.

Lemma channel_without_overwrites_witness :
  ClubChannel_permissionsOf sample_Permissions sample_club sample_quiet_channel
    (inr (JStr "3")) = Ok {| allow := 3072 |}.
Proof.
  apply (channel_without_overwrites sample_Permissions sample_club
           sample_quiet_channel (inr (JStr "3")) sample_member
           [JStr "300"; JStr "999"; JStr "400"] {| allow := 3072 |});
    try reflexivity.
  intros id Hid.
  apply elem_of_cons in Hid as [-> | Hid]; [reflexivity |].
  apply elem_of_cons in Hid as [-> | Hid]; [reflexivity |].
  apply elem_of_cons in Hid as [-> | Hid]; [reflexivity |].
  by apply elem_of_nil in Hid.
Defined.

(** X8.  The owner of a club gets the full mask on every channel of
    it, whatever the overwrites of the channel deny, the member overwrite
    included (the full mask containing the administrator bit). *)
Theorem owner_on_channel P club channel memberID m :
  resolve (members club) memberID = Some m ->
  strict_eq (member_id m) (prop (club_props club) "ownerID") = true ->
  nonzero (band (all P) (administrator P)) = true ->
  ClubChannel_permissionsOf P club channel memberID = Ok {| allow := all P |}.
Proof.
  intros Hm Howner Hall.
  apply (ClubChannel_permissionsOf_administrator P club channel memberID
           {| allow := all P |}); [| done].
  by apply (Club_permissionsOf_owner P club memberID m).
Qed.

Lemma owner_on_channel_witness :
  ClubChannel_permissionsOf sample_Permissions sample_club sample_private_channel
    (inr (JStr "1")) = Ok {| allow := 2147483647 |}.
Proof.
  apply (owner_on_channel sample_Permissions sample_club sample_private_channel
           (inr (JStr "1")) sample_owner); reflexivity.
Defined.

(** X9.  Club scope only accumulates.  For a member who is not the
    owner and holds no administrator role, a capability is in the club-wide
    mask exactly when the everyone role or one of the registered roles the
    member holds allows it. *)
Theorem club_mask_bits P club memberID m everyone ids i :
  resolve (members club) memberID = Some m ->
  strict_eq (member_id m) (prop (club_props club) "ownerID") = false ->
  roles club !! club_id club = Some everyone ->
  prop (member_props m) "roles" = JArr ids ->
  existsb (is_administrator P) (held_roles (roles club) ids) = false ->
  0 <= i < 32 ->
  exists mask,
    Club_permissionsOf P club memberID = Ok {| allow := mask |}
    /\ Z.testbit mask i
       = Z.testbit (allow (role_permissions everyone)) i
         || existsb (fun r => Z.testbit (allow (role_permissions r)) i)
              (held_roles (roles club) ids).
Proof.
  intros Hm Howner Heveryone Hids Hadmin Hi.
  eexists. split.
  - by apply (Club_permissionsOf_roles P club memberID m everyone ids).
  - unfold club_mask, accumulated. rewrite Hadmin.
    by rewrite foldl_bor_testbit, existsb_fmap.
Qed.

Lemma club_mask_bits_witness :
  exists mask,
    Club_permissionsOf sample_Permissions sample_club (inr (JStr "3"))
    = Ok {| allow := mask |}
    /\ Z.testbit mask 11 = true.
Proof.
  destruct (club_mask_bits sample_Permissions sample_club (inr (JStr "3"))
              sample_member (role "100" 1024) [JStr "300"; JStr "999"; JStr "400"] 11
              eq_refl eq_refl eq_refl eq_refl eq_refl ltac:(lia))
    as (mask & Hmask & Hbit).
  exists mask. split; [exact Hmask | exact Hbit].
Defined.

Lemma accumulated_administrator P everyone held :
  is_administrator P everyone = true ->
  nonzero (band (accumulated everyone held) (administrator P)) = true.
Proof.
  unfold is_administrator, accumulated.
  rewrite !nonzero_bits by apply int32_band.
  intros (i & Hi & Hbit). exists i. split; [done |].
  rewrite band_testbit in Hbit |- * by done.
  apply andb_true_iff in Hbit as [Hz Ha].
  by rewrite foldl_bor_testbit, Hz, Ha.
Qed.

(** X10.  The administrator bit counts on a channel whichever role
    contributes it.  When the allow mask of the everyone role has it,
    every member whose role list is an array gets the full mask on every
    channel, although club scope expands the bit to the full mask only for
    the roles on the member's list (the full mask containing the bit). *)
Theorem everyone_administrator P club channel memberID m everyone ids :
  resolve (members club) memberID = Some m ->
  prop (member_props m) "roles" = JArr ids ->
  roles club !! club_id club = Some everyone ->
  is_administrator P everyone = true ->
  nonzero (band (all P) (administrator P)) = true ->
  ClubChannel_permissionsOf P club channel memberID = Ok {| allow := all P |}.
Proof.
  intros Hm Hids Heveryone Hadmin Hall.
  destruct (strict_eq (member_id m) (prop (club_props club) "ownerID")) eqn:Howner.
  - apply (ClubChannel_permissionsOf_administrator P club channel memberID
             {| allow := all P |}); [| done].
    by apply (Club_permissionsOf_owner P club memberID m).
  - eapply ClubChannel_permissionsOf_administrator.
    + by apply (Club_permissionsOf_roles P club memberID m everyone ids).
    + simpl. unfold club_mask.
      destruct (existsb _ _); [done | by apply accumulated_administrator].
Qed.

Lemma everyone_administrator_witness :
  Club_permissionsOf sample_Permissions sample_open_club (inr (JStr "4"))
  = Ok {| allow := 1032 |}
  /\ ClubChannel_permissionsOf sample_Permissions sample_open_club sample_channel
       (inr (JStr "4")) = Ok {| allow := 2147483647 |}.
Proof.
  split; [reflexivity |].
  apply (everyone_administrator sample_Permissions sample_open_club sample_channel
           (inr (JStr "4")) (member "4" []) (role "100" 1032) []); reflexivity.
Defined.

(** ** More on the merges *)

Lemma lookup_assign_with f field attr data (this : JSObject) a :
  assign_if_defined_with f field attr data this !! a
  = if decide (attr = a)
    then match prop data field with JUndefined => this !! a | v => Some (f v) end
    else this !! a.
Proof.
  unfold assign_if_defined_with.
  destruct (prop data field); rewrite ?lookup_insert; case_decide; by subst.
Qed.

Lemma assign_all_lookup_other table data (this : JSObject) a :
  a ∉ table.*2 -> assign_all table data this !! a = this !! a.
Proof.
  revert this.
  induction table as [| [[f field] attr] table IH]; intros this Hnot; [done |].
  simpl in Hnot. apply not_elem_of_cons in Hnot as [Hne Hnot].
  rewrite assign_all_cons, IH by done.
  rewrite lookup_assign_with. by rewrite decide_False.
Qed.

Lemma assign_all_lookup table data (this : JSObject) f field attr :
  NoDup table.*2 -> (f, field, attr) ∈ table ->
  assign_all table data this !! attr
  = match prop data field with JUndefined => this !! attr | v => Some (f v) end.
Proof.
  revert this.
  induction table as [| [[f0 field0] attr0] table IH]; intros this Hnodup Hin.
  - by apply elem_of_nil in Hin.
  - simpl in Hnodup. apply NoDup_cons in Hnodup as [Hfresh Hnodup].
    rewrite assign_all_cons.
    apply elem_of_cons in Hin as [Heq | Hin].
    + injection Heq as -> -> ->.
      rewrite assign_all_lookup_other by done.
      rewrite lookup_assign_with. by rewrite decide_True.
    + rewrite IH by done.
      rewrite lookup_assign_with, decide_False; [done |].
      intros Heq. apply Hfresh.
      apply list_elem_of_fmap. by exists (f, field, attr).
Qed.

Lemma table_entry (table : list ((JSValue -> JSValue) * string * string)) attr :
  attr ∈ table.*2 -> exists f field, (f, field, attr) ∈ table.
Proof.
  intros Hin. apply list_elem_of_fmap in Hin as ([[f field] attr'] & -> & Hin).
  by exists f, field.
Qed.

Lemma assign_all_idempotent table data (this : JSObject) :
  NoDup table.*2 ->
  assign_all table data (assign_all table data this) = assign_all table data this.
Proof.
  intros Hnodup. apply map_eq. intros a.
  destruct (decide (a ∈ table.*2)) as [Hin | Hnot].
  - destruct (table_entry table a Hin) as (f & field & Hentry).
    rewrite (assign_all_lookup table data _ f field a) by done.
    destruct (prop data field) eqn:Hfield; try done;
      by rewrite (assign_all_lookup table data _ f field a), Hfield by done.
  - by rewrite assign_all_lookup_other.
Qed.

Lemma assign_all_commute table d1 d2 (this : JSObject) :
  NoDup table.*2 ->
  (forall f field attr, (f, field, attr) ∈ table ->
     prop d1 field = JUndefined \/ prop d2 field = JUndefined) ->
  assign_all table d1 (assign_all table d2 this)
  = assign_all table d2 (assign_all table d1 this).
Proof.
  intros Hnodup Hdisjoint. apply map_eq. intros a.
  destruct (decide (a ∈ table.*2)) as [Hin | Hnot].
  - destruct (table_entry table a Hin) as (f & field & Hentry).
    rewrite !(assign_all_lookup table _ _ f field a) by done.
    destruct (Hdisjoint f field a Hentry) as [-> | ->]; by destruct (prop _ field).
  - by rewrite !assign_all_lookup_other.
Qed.

Lemma assign_all_undefined table data (this : JSObject) :
  (forall f field attr, (f, field, attr) ∈ table -> prop data field = JUndefined) ->
  assign_all table data this = this.
Proof.
  revert this.
  induction table as [| [[f field] attr] table IH]; intros this Hundefined; [done |].
  rewrite assign_all_cons. unfold assign_if_defined_with.
  rewrite (Hundefined f field attr) by apply list_elem_of_here.
  apply IH. intros f' field' attr' Hin.
  apply (Hundefined f' field' attr'). by apply list_elem_of_further.
Qed.

Lemma copied_entry fields f field attr :
  (f, field, attr) ∈ copied fields -> (field, attr) ∈ fields.
Proof.
  unfold copied. intros Hin.
  apply list_elem_of_fmap in Hin as ([field' attr'] & Heq & Hin).
  by injection Heq as -> -> ->.
Qed.

Lemma NoDup_Club_fields : NoDup (copied Club_fields).*2.
Proof. apply (bool_decide_unpack _). vm_compute. exact I. Qed.

Lemma Club_update_unfold data this :
  Club_update data this
  = {| club_id := club_id this;
       club_props := assign_all (copied Club_fields) data (club_props this);
       roles := roles this; members := members this;
       voiceStates := voiceStates this |}.
Proof.
  cbv [Club_update assign_if_defined assign_all copied Club_fields fmap list_fmap foldl].
  reflexivity.
Qed.

(** X11.  [Club.update] writes the 26 attributes of its guards and
    nothing else: an attribute outside the list (unavailable, joinedAt,
    memberCount, what the constructor set) keeps its value, present or not,
    and the id and the registries of roles, members and voice states are
    the same objects. *)
Theorem Club_update_frame data club attr :
  attr ∉ Club_fields.*2 ->
  club_props (Club_update data club) !! attr = club_props club !! attr
  /\ club_id (Club_update data club) = club_id club
  /\ roles (Club_update data club) = roles club
  /\ members (Club_update data club) = members club
  /\ voiceStates (Club_update data club) = voiceStates club.
Proof.
  intros Hattr. rewrite Club_update_unfold.
  cbn [club_props club_id roles members voiceStates].
  split; [| done].
  apply assign_all_lookup_other.
  intros Hin. apply Hattr.
  apply list_elem_of_fmap in Hin as ([[f field] attr'] & -> & Hin).
  apply copied_entry in Hin.
  apply list_elem_of_fmap. by exists (field, attr').
Qed.

Lemma Club_update_frame_witness :
  club_props (Club_update sample_icon_patch sample_outage_club) !! "unavailable"
  = Some (JBool true).
Proof.
  rewrite (proj1 (Club_update_frame sample_icon_patch sample_outage_club "unavailable"
                    ltac:(apply (bool_decide_unpack _); vm_compute; exact I))).
  reflexivity.
Defined.

(** X12.  Merging the same payload into a club twice leaves it as
    merging it once does. *)
Theorem Club_update_idempotent data club :
  Club_update data (Club_update data club) = Club_update data club.
Proof.
  rewrite !Club_update_unfold.
  cbn [club_props club_id roles members voiceStates].
  by rewrite assign_all_idempotent by apply NoDup_Club_fields.
Qed.

(** X13.  A payload in which none of the 26 fields of [Club.update] is
    defined, whatever else it carries, leaves the club as it is. *)
Theorem Club_update_unrelated data club :
  (forall field, field ∈ Club_fields.*1 -> prop data field = JUndefined) ->
  Club_update data club = club.
Proof.
  intros Hundefined. rewrite Club_update_unfold.
  rewrite assign_all_undefined; [by destruct club |].
  intros f field attr Hin. apply Hundefined.
  apply copied_entry in Hin.
  apply list_elem_of_fmap. by exists (field, attr).
Qed.

Lemma Club_update_unrelated_witness :
  Club_update sample_mute sample_club = sample_club.
Proof.
  apply (Club_update_unrelated sample_mute sample_club).
  intros field Hin. unfold Club_fields in Hin. simpl in Hin.
  repeat (apply elem_of_cons in Hin as [-> | Hin]; [reflexivity |]).
  by apply elem_of_nil in Hin.
Defined.

(** X14.  Two club patches none of whose 26 fields is defined in both
    can be merged in either order. *)
Theorem Club_update_commute d1 d2 club :
  (forall field, field ∈ Club_fields.*1 ->
     prop d1 field = JUndefined \/ prop d2 field = JUndefined) ->
  Club_update d1 (Club_update d2 club) = Club_update d2 (Club_update d1 club).
Proof.
  intros Hdisjoint. rewrite !Club_update_unfold.
  cbn [club_props club_id roles members voiceStates]. f_equal.
  apply assign_all_commute; [apply NoDup_Club_fields |].
  intros f field attr Hin. apply Hdisjoint.
  apply copied_entry in Hin.
  apply list_elem_of_fmap. by exists (field, attr).
Qed.

Lemma Club_update_commute_witness :
  Club_update sample_region_patch (Club_update sample_icon_patch sample_club)
  = Club_update sample_icon_patch (Club_update sample_region_patch sample_club).
Proof.
  apply (Club_update_commute sample_region_patch sample_icon_patch sample_club).
  intros field Hin. unfold Club_fields in Hin. simpl in Hin.
  repeat (apply elem_of_cons in Hin as [-> | Hin];
          [first [left; reflexivity | right; reflexivity] |]).
  by apply elem_of_nil in Hin.
Defined.

(** X15.  When two payloads are merged into a club one after the other,
    each attribute of the 26 holds the value of the later payload if its
    field is defined there, else that of the earlier payload if defined
    there, else what it held before. *)
Theorem Club_update_later_wins d1 d2 club field attr :
  (field, attr) ∈ Club_fields ->
  prop (club_props (Club_update d2 (Club_update d1 club))) attr
  = merge (merge (prop (club_props club) attr) (prop d1 field)) (prop d2 field).
Proof.
  intros Hin. rewrite !Club_update_unfold.
  cbn [club_props club_id roles members voiceStates].
  rewrite !(assign_all_prop _ _ _ (fun v => v) field attr);
    try apply NoDup_Club_fields; try by apply copied_elem.
  unfold merge. by destruct (prop d2 field), (prop d1 field).
Qed.

Lemma Club_update_later_wins_witness :
  prop (club_props (Club_update sample_icon_patch (Club_update sample_patch sample_club)))
    "name" = JStr "go".
Proof.
  rewrite (Club_update_later_wins sample_patch sample_icon_patch sample_club
             "name" "name" ltac:(apply (bool_decide_unpack _); vm_compute; exact I)).
  reflexivity.
Defined.

Lemma name_heuristic_nsfw_name s :
  name_heuristic (JStr s) = Ok (nsfw_name s)
  /\ (nsfw_name s = true <-> s = "nsfw" \/ String.prefix "nsfw-" s = true).
Proof.
  split.
  - unfold nsfw_name. simpl. f_equal.
    destruct (Nat.eqb_spec (String.length s) 4) as [Hlen | Hlen].
    + destruct (String.prefix "nsfw-" s) eqn:Hprefix; [| by rewrite orb_false_r].
      apply prefix_length in Hprefix. simpl in Hprefix. lia.
    + destruct (String.eqb_spec s "nsfw") as [-> | _]; [| done].
      by destruct Hlen.
  - unfold nsfw_name. rewrite orb_true_iff.
    by rewrite String.eqb_eq.
Qed.

(** X16.  On a string the name test of line 44 never throws, and its
    two branches on the length say together: the name is exactly ["nsfw"]
    or it starts with ["nsfw-"]. *)
Theorem name_heuristic_string s :
  name_heuristic (JStr s) = Ok (nsfw_name s)
  /\ (nsfw_name s = true <-> s = "nsfw" \/ String.prefix "nsfw-" s = true).
Proof. apply name_heuristic_nsfw_name. Qed.

(** X17.  After a merge into a channel whose name is then the string
    [s], the attribute [nsfw] is truthy exactly when [s] matches the name
    test or the flag of the payload is truthy. *)
Theorem nsfw_truthiness data channel s :
  merged_name data channel = JStr s ->
  truthy (prop (channel_props (ClubChannel_update data channel).1) "nsfw")
  = nsfw_name s || truthy (prop data "nsfw").
Proof.
  intros Hname.
  rewrite (ClubChannel_update_nsfw data channel (nsfw_name s)).
  - unfold js_or. simpl. by destruct (nsfw_name s).
  - rewrite Hname. apply name_heuristic_nsfw_name.
Qed.

Lemma nsfw_truthiness_witness :
  truthy (prop (channel_props (ClubChannel_update sample_move sample_channel).1) "nsfw")
  = false.
Proof.
  rewrite (nsfw_truthiness sample_move sample_channel "general" eq_refl).
  reflexivity.
Defined.

(** X18.  When the name of the channel, once the payload is merged, is
    undefined, null, a boolean or a number, [ClubChannel.update] throws a
    TypeError at line 44: the guarded fields of lines 32-43 are written,
    and neither [nsfw] nor the overwrites are touched, even when the payload
    carries overwrites. *)
Theorem ClubChannel_update_bad_name data channel :
  match merged_name data channel with
  | JUndefined | JNull | JBool _ | JNum _ => True
  | _ => False
  end ->
  ClubChannel_update data channel
  = ({| channel_id := channel_id channel;
        channel_props :=
          assign_all (copied ClubChannel_fields) data (channel_props channel);
        permissionOverwrites := permissionOverwrites channel |},
     Some TypeError)
  /\ channel_props (ClubChannel_update data channel).1 !! "nsfw"
     = channel_props channel !! "nsfw".
Proof.
  intros Hname.
  assert (name_heuristic
            (prop (assign_all (copied ClubChannel_fields) data (channel_props channel))
               "name") = Throw TypeError) as Hthrow.
  { rewrite ClubChannel_update_name.
    by destruct (merged_name data channel). }
  assert (ClubChannel_update data channel
          = ({| channel_id := channel_id channel;
                channel_props :=
                  assign_all (copied ClubChannel_fields) data (channel_props channel);
                permissionOverwrites := permissionOverwrites channel |},
             Some TypeError)) as ->.
  { unfold ClubChannel_update. cbv zeta.
    rewrite <- !ClubChannel_assignments. by rewrite Hthrow. }
  split; [done |].
  cbn [fst channel_props]. apply assign_all_lookup_other.
  apply (bool_decide_unpack _). vm_compute. exact I.
Qed.

Lemma ClubChannel_update_bad_name_witness :
  (ClubChannel_update sample_bad_name sample_channel).2 = Some TypeError
  /\ prop (channel_props (ClubChannel_update sample_bad_name sample_channel).1)
       "position" = JNum 7
  /\ channel_props (ClubChannel_update sample_bad_name sample_channel).1 !! "nsfw"
     = Some (JBool true)
  /\ permissionOverwrites (ClubChannel_update sample_bad_name sample_channel).1
     = permissionOverwrites sample_channel.
Proof.
  destruct (ClubChannel_update_bad_name sample_bad_name sample_channel I)
    as [Hupdate Hnsfw].
  rewrite Hnsfw, Hupdate.
  split; [reflexivity |]. split; [reflexivity |]. split; reflexivity.
Defined.

(** X19.  A payload whose [permission_overwrites] is absent, null or
    otherwise falsy never changes the overwrites of a channel, whether the
    merge runs to its end or not. *)
Theorem ClubChannel_update_keeps_overwrites data channel :
  truthy (prop data "permission_overwrites") = false ->
  permissionOverwrites (ClubChannel_update data channel).1
  = permissionOverwrites channel.
Proof.
  intros Hfalsy. unfold ClubChannel_update. cbv zeta.
  destruct (name_heuristic _); [| done].
  by rewrite Hfalsy.
Qed.

Lemma ClubChannel_update_keeps_overwrites_witness :
  permissionOverwrites (ClubChannel_update sample_rename sample_channel).1
  = permissionOverwrites sample_channel.
Proof.
  apply (ClubChannel_update_keeps_overwrites sample_rename sample_channel).
  reflexivity.
Defined.

(** X20.  A truthy [permission_overwrites] that is not an array (a
    number, a string, an object) makes [ClubChannel.update] throw a
    TypeError after the registry of overwrites has been replaced by an empty
    one and [nsfw] has been written: the channel is left without
    overwrites. *)
Theorem ClubChannel_update_bad_overwrites data channel matches :
  name_heuristic (merged_name data channel) = Ok matches ->
  truthy (prop data "permission_overwrites") = true ->
  match prop data "permission_overwrites" with JArr _ => False | _ => True end ->
  (ClubChannel_update data channel).2 = Some TypeError
  /\ permissionOverwrites (ClubChannel_update data channel).1 = ∅
  /\ prop (channel_props (ClubChannel_update data channel).1) "nsfw"
     = js_or (JBool matches) (prop data "nsfw").
Proof.
  intros Hname Htruthy Hshape.
  split; [| split]; [| | by apply ClubChannel_update_nsfw].
  - unfold ClubChannel_update. cbv zeta.
    rewrite <- !ClubChannel_assignments, ClubChannel_update_name, Hname, Htruthy.
    by destruct (prop data "permission_overwrites").
  - unfold ClubChannel_update. cbv zeta.
    rewrite <- !ClubChannel_assignments, ClubChannel_update_name, Hname, Htruthy.
    by destruct (prop data "permission_overwrites").
Qed.

Lemma ClubChannel_update_bad_overwrites_witness :
  (ClubChannel_update sample_bad_overwrites sample_channel).2 = Some TypeError
  /\ permissionOverwrites (ClubChannel_update sample_bad_overwrites sample_channel).1 = ∅
  /\ prop (channel_props (ClubChannel_update sample_bad_overwrites sample_channel).1)
       "nsfw" = JUndefined.
Proof.
  apply (ClubChannel_update_bad_overwrites sample_bad_overwrites sample_channel false);
    [reflexivity | reflexivity | exact I].
Defined.

(** X21.  A payload whose [permission_overwrites] is the empty array
    removes every overwrite of the channel without an exception; afterwards
    a member without the administrator bit gets the club-wide mask on the
    channel, as a signed 32-bit number. *)
Theorem ClubChannel_update_clears_overwrites
    P club channel data matches memberID m ids base :
  name_heuristic (merged_name data channel) = Ok matches ->
  prop data "permission_overwrites" = JArr [] ->
  resolve (members club) memberID = Some m ->
  prop (member_props m) "roles" = JArr ids ->
  Club_permissionsOf P club memberID = Ok base ->
  nonzero (band (allow base) (administrator P)) = false ->
  (ClubChannel_update data channel).2 = None
  /\ permissionOverwrites (ClubChannel_update data channel).1 = ∅
  /\ ClubChannel_permissionsOf P club (ClubChannel_update data channel).1 memberID
     = Ok {| allow := to_int32 (allow base) |}.
Proof.
  intros Hname Hempty Hm Hids Hbase Hadmin.
  assert ((ClubChannel_update data channel).2 = None
          /\ permissionOverwrites (ClubChannel_update data channel).1 = ∅)
    as [Hnone Hcleared].
  { unfold ClubChannel_update. cbv zeta.
    rewrite <- !ClubChannel_assignments, ClubChannel_update_name, Hname, Hempty.
    done. }
  split; [done |]. split; [done |].
  apply (channel_without_overwrites_aux P club _ memberID m ids base);
    try done; rewrite Hcleared; try done.
  - intros id _. by destruct id.
  - by destruct (member_id m).
Qed.

Lemma ClubChannel_update_clears_overwrites_witness :
  (ClubChannel_update sample_no_overwrites sample_private_channel).2 = None
  /\ permissionOverwrites (ClubChannel_update sample_no_overwrites
                             sample_private_channel).1 = ∅
  /\ ClubChannel_permissionsOf sample_Permissions sample_club
       (ClubChannel_update sample_no_overwrites sample_private_channel).1
       (inr (JStr "3"))
     = Ok {| allow := 3072 |}.
Proof.
  apply (ClubChannel_update_clears_overwrites sample_Permissions sample_club
           sample_private_channel sample_no_overwrites true (inr (JStr "3"))
           sample_member [JStr "300"; JStr "999"; JStr "400"] {| allow := 3072 |});
    reflexivity.
Defined.

(** ** More on members *)

Lemma NoDup_Member_assignments Date_parse Object_assign :
  NoDup (Member_assignments Date_parse Object_assign).*2.
Proof. apply (bool_decide_unpack _). vm_compute. exact I. Qed.

Lemma Member_update_unfold Date_parse Object_assign data club this :
  Member_update Date_parse Object_assign data club this
  = ({| member_id := member_id this; member_user := member_user this;
        member_props :=
          assign_all (Member_assignments Date_parse Object_assign) data
            (member_props this) |},
     match club with
     | Some c =>
         if hasOwnProperty data "mute" then
           Some {| club_id := club_id c; club_props := club_props c; roles := roles c;
                   members := members c;
                   voiceStates := update_voice data (member_id this) (voiceStates c) |}
         else Some c
     | None => None
     end).
Proof.
  cbv [Member_update assign_if_defined assign_all Member_assignments foldl].
  reflexivity.
Qed.

Lemma update_voice_unfold data id registry :
  update_voice data id registry
  = if disconnects data then Collection_delete registry id
    else
      match Collection_get registry id, id with
      | Some state, JStr k => <[k := VoiceState_update data state]> registry
      | Some _, _ => registry
      | None, _ =>
          if truthy (js_or (js_or (js_or (prop data "channel_id") (prop data "mute"))
                                  (prop data "deaf")) (prop data "suppress"))
          then Collection_update_VoiceState registry data
          else registry
      end.
Proof. reflexivity. Qed.

Lemma update_voice_other data id (registry : Collection VoiceState) k :
  JStr k <> id -> JStr k <> prop data "id" ->
  update_voice data id registry !! k = registry !! k.
Proof.
  intros Hid Hdata. rewrite update_voice_unfold.
  destruct (disconnects data).
  - destruct id; simpl; try done.
    apply lookup_delete_ne. congruence.
  - destruct (Collection_get registry id) as [state |] eqn:Hstate.
    + destruct id; try done. apply lookup_insert_ne. congruence.
    + destruct (truthy _); [| done].
      unfold Collection_update_VoiceState.
      destruct (prop data "id") as [| | | | k' | |]; try done.
      destruct (registry !! k'); [| done].
      apply lookup_insert_ne. congruence.
Qed.

Lemma Member_update_untouched Date_parse Object_assign data club m :
  member_id (Member_update Date_parse Object_assign data (Some club) m).1 = member_id m
  /\ member_user (Member_update Date_parse Object_assign data (Some club) m).1
     = member_user m
  /\ exists club',
       (Member_update Date_parse Object_assign data (Some club) m).2 = Some club'
       /\ club_id club' = club_id club
       /\ club_props club' = club_props club
       /\ roles club' = roles club
       /\ (hasOwnProperty data "mute" = false -> voiceStates club' = voiceStates club)
       /\ (forall k, JStr k <> member_id m -> JStr k <> prop data "id" ->
                     voiceStates club' !! k = voiceStates club !! k).
Proof.
  rewrite Member_update_unfold. cbn [fst snd member_id member_user].
  split; [done |]. split; [done |].
  destruct (hasOwnProperty data "mute").
  - eexists. split; [reflexivity |]. cbn [club_id club_props roles voiceStates].
    repeat (split; [done |]).
    intros k Hid Hdata. by apply update_voice_other.
  - exists club. repeat (split; [done |]). done.
Qed.

(** X22.  What [Member.update] never touches: the id and the user of
    the member; the id, the attributes and the roles of its club; the voice
    states when the payload has no own property [mute]; and, in any case,
    the voice state of every id other than the member's and the
    payload's. *)
Theorem Member_update_frame Date_parse Object_assign data club m :
  member_id (Member_update Date_parse Object_assign data (Some club) m).1 = member_id m
  /\ member_user (Member_update Date_parse Object_assign data (Some club) m).1
     = member_user m
  /\ exists club',
       (Member_update Date_parse Object_assign data (Some club) m).2 = Some club'
       /\ club_id club' = club_id club
       /\ club_props club' = club_props club
       /\ roles club' = roles club
       /\ (hasOwnProperty data "mute" = false -> voiceStates club' = voiceStates club)
       /\ (forall k, JStr k <> member_id m -> JStr k <> prop data "id" ->
                     voiceStates club' !! k = voiceStates club !! k).
Proof. apply Member_update_untouched. Qed.

Lemma Member_update_frame_witness :
  exists club',
    (Member_update (fun v => v) (fun target source => target) sample_status
       (Some sample_club) sample_admin).2 = Some club'
    /\ voiceStates club' = voiceStates sample_club.
Proof.
  destruct (Member_update_frame (fun v => v) (fun target source => target)
              sample_status sample_club sample_admin)
    as (_ & _ & club' & Hclub & _ & _ & _ & Hsame & _).
  exists club'. split; [exact Hclub | exact (Hsame eq_refl)].
Defined.

(** X23.  A payload that says a member left voice, for a member who has
    no voice state, leaves the voice states of the club as they are. *)
Theorem voice_disconnect_without_state Date_parse Object_assign data club m :
  hasOwnProperty data "mute" = true ->
  disconnects data = true ->
  Collection_get (voiceStates club) (member_id m) = None ->
  exists club',
    (Member_update Date_parse Object_assign data (Some club) m).2 = Some club'
    /\ voiceStates club' = voiceStates club.
Proof.
  intros Hown Hleft Hstate. rewrite Member_update_unfold. cbn [snd].
  rewrite Hown, update_voice_unfold, Hleft.
  eexists. split; [reflexivity |]. cbn [voiceStates].
  destruct (member_id m); simpl in *; try done.
  by apply delete_id.
Qed.

Lemma voice_disconnect_without_state_witness :
  exists club',
    (Member_update (fun v => v) (fun target source => target) sample_disconnect
       (Some sample_club) sample_admin).2 = Some club'
    /\ voiceStates club' = voiceStates sample_club.
Proof.
  apply (voice_disconnect_without_state (fun v => v) (fun target source => target)
           sample_disconnect sample_club sample_admin); reflexivity.
Defined.

(** X24.  A voice payload that does not say the member left, for a
    member who has a voice state, merges into that state where it is
    registered: the registry holds the merged state under the member's id,
    and the getter [voiceState] returns it. *)
Theorem voice_update_existing Date_parse Object_assign data club m k state :
  hasOwnProperty data "mute" = true ->
  disconnects data = false ->
  member_id m = JStr k ->
  voiceStates club !! k = Some state ->
  exists m' club',
    Member_update Date_parse Object_assign data (Some club) m = (m', Some club')
    /\ voiceStates club' = <[k := VoiceState_update data state]> (voiceStates club)
    /\ Member_voiceState (Some club') m' = VoiceState_update data state.
Proof.
  intros Hown Hstays Hid Hstate.
  rewrite Member_update_unfold, Hown, Hid, update_voice_unfold, Hstays.
  simpl. rewrite Hstate.
  eexists _, _. split; [reflexivity |]. split; [done |].
  unfold Member_voiceState, Collection_has. simpl.
  rewrite lookup_insert_eq. by rewrite bool_decide_eq_true_2 by eauto.
Qed.

Lemma voice_update_existing_witness :
  exists m' club',
    Member_update (fun v => v) (fun target source => target) sample_mute
      (Some sample_club) sample_member = (m', Some club')
    /\ voiceStates club'
       = <["3" := VoiceState_update sample_mute sample_voice]> (voiceStates sample_club)
    /\ Member_voiceState (Some club') m' = VoiceState_update sample_mute sample_voice.
Proof.
  apply (voice_update_existing (fun v => v) (fun target source => target)
           sample_mute sample_club sample_member "3" sample_voice); reflexivity.
Defined.

Lemma VoiceState_update_idempotent data state :
  VoiceState_update data (VoiceState_update data state) = VoiceState_update data state.
Proof.
  unfold VoiceState_update, merge. simpl.
  f_equal; by destruct (prop data _).
Qed.

Lemma Collection_update_VoiceState_idempotent registry data :
  Collection_update_VoiceState (Collection_update_VoiceState registry data) data
  = Collection_update_VoiceState registry data.
Proof.
  unfold Collection_update_VoiceState.
  destruct (prop data "id") as [| | | | k | |]; try done.
  destruct (registry !! k) as [state |] eqn:Hstate.
  - rewrite lookup_insert_eq, insert_insert_eq.
    by rewrite VoiceState_update_idempotent.
  - by rewrite Hstate.
Qed.

Lemma Collection_update_VoiceState_get registry data id :
  Collection_get registry id = None ->
  Collection_get (Collection_update_VoiceState registry data) id = None.
Proof.
  intros Hnone. unfold Collection_update_VoiceState.
  destruct (prop data "id") as [| | | | k | |]; try done.
  destruct (registry !! k) as [state |] eqn:Hstate; [| done].
  destruct id as [| | | | k' | |]; try done. simpl in *.
  rewrite lookup_insert_ne; [done |]. congruence.
Qed.

Lemma update_voice_idempotent data id registry :
  update_voice data id (update_voice data id registry) = update_voice data id registry.
Proof.
  rewrite !update_voice_unfold.
  destruct (disconnects data).
  - destruct id; simpl; try done. apply delete_delete_eq.
  - destruct (Collection_get registry id) as [state |] eqn:Hstate.
    + destruct id as [| | | | k | |]; try done. simpl.
      rewrite lookup_insert_eq, insert_insert_eq.
      by rewrite VoiceState_update_idempotent.
    + destruct (truthy _) eqn:Hsome.
      * rewrite Collection_update_VoiceState_get by done.
        apply Collection_update_VoiceState_idempotent.
      * by rewrite Hstate.
Qed.

(** X25.  Merging the same payload into a member twice leaves the
    member and its club, voice states included, as merging it once does. *)
Theorem Member_update_idempotent Date_parse Object_assign data club m :
  Member_update Date_parse Object_assign data
    (Member_update Date_parse Object_assign data club m).2
    (Member_update Date_parse Object_assign data club m).1
  = Member_update Date_parse Object_assign data club m.
Proof.
  rewrite !Member_update_unfold. cbn [fst snd member_id member_user member_props].
  rewrite assign_all_idempotent by apply NoDup_Member_assignments.
  f_equal. destruct club as [c |]; [| done].
  destruct (hasOwnProperty data "mute"); [| done].
  cbn [club_id club_props roles members voiceStates].
  by rewrite update_voice_idempotent.
Qed.

(** ** More on the construction of a member *)

(** X26.  A payload with no id and no embedded user (undefined or
    null) makes the constructor throw a TypeError at its first statement,
    with or without a club. *)
Theorem Member_new_anonymous Date_parse Object_assign data club users :
  truthy (prop data "id") = false ->
  prop data "user" = JUndefined \/ prop data "user" = JNull ->
  Member_new Date_parse Object_assign data club users = Throw TypeError.
Proof.
  intros Hid Huser. unfold Member_new. rewrite Hid.
  by destruct Huser as [-> | ->].
Qed.

Lemma Member_new_anonymous_witness :
  Member_new (fun v => v) (fun target source => target) sample_anonymous
    (Some sample_club) sample_users = Throw TypeError.
Proof.
  apply (Member_new_anonymous (fun v => v) (fun target source => target)
           sample_anonymous (Some sample_club) sample_users);
    [reflexivity | left; reflexivity].
Defined.

(** X27.  With a club, a user cached under the id of the payload is the
    user of the member, whatever user the payload embeds: the embedded one
    is not registered and the user registry stays as it is. *)
Theorem Member_new_cached Date_parse Object_assign data club users user :
  truthy (prop data "id") = true ->
  Collection_get users (prop data "id") = Some user ->
  exists m club',
    Member_new Date_parse Object_assign data (Some club) users = Ok (m, users, club')
    /\ member_id m = prop data "id"
    /\ member_user m = Some user.
Proof.
  intros Hid Hcached. unfold Member_new. rewrite Hid. simpl.
  rewrite Hcached. simpl.
  eexists _, _. split; [reflexivity |]. done.
Qed.

Lemma Member_new_cached_witness :
  exists m club',
    Member_new (fun v => v) (fun target source => target) sample_cached_join
      (Some sample_club) sample_users = Ok (m, sample_users, club')
    /\ member_id m = JStr "42"
    /\ member_user m
       = Some {| user_id := JStr "42"; user_data := JObj [("id", JStr "42")] |}.
Proof.
  apply (Member_new_cached (fun v => v) (fun target source => target)
           sample_cached_join sample_club sample_users
           {| user_id := JStr "42"; user_data := JObj [("id", JStr "42")] |});
    reflexivity.
Defined.

(** X28.  Without a club the constructor never reads nor writes the
    user registry: the member it returns has a user exactly when the
    payload embeds a truthy one, and that user is built from the payload. *)
Theorem Member_new_without_club Date_parse Object_assign data users m users' club' :
  Member_new Date_parse Object_assign data None users = Ok (m, users', club') ->
  users' = users
  /\ club' = None
  /\ member_user m
     = if truthy (prop data "user") then Some (User_new (prop data "user")) else None.
Proof.
  unfold Member_new.
  destruct (truthy (prop data "id")) eqn:Hid;
    destruct (prop data "user") as [| | b | n | u | items | fields] eqn:Huser;
    simpl; try done;
    try destruct b; try destruct (negb _) eqn:Htruthy;
    simpl; rewrite ?prop_insert; simpl; rewrite ?Huser; simpl; rewrite ?Htruthy;
    by intros [= <- <- <-].
Qed.

Lemma Member_new_without_club_witness :
  exists m,
    Member_new (fun v => v) (fun target source => target) sample_join None sample_users
    = Ok (m, sample_users, None)
    /\ member_user m
       = Some (User_new (JObj [("id", JStr "9"); ("username", JStr "nine")])).
Proof.
  eexists. split; [reflexivity |].
  apply (Member_new_without_club (fun v => v) (fun target source => target)
           sample_join sample_users _ sample_users None eq_refl).
Defined.

Lemma Member_new_Ok Date_parse Object_assign data club users m users' club' :
  Member_new Date_parse Object_assign data club users = Ok (m, users', club') ->
  exists data' id user,
    (forall field, field <> "id" -> prop data' field = prop data field)
    /\ Member_update Date_parse Object_assign data' club
         {| member_id := id; member_user := user;
            member_props :=
              <["roles" := JArr []]> (<["nick" := JNull]> (<["game" := JNull]> ∅)) |}
       = (m, club').
Proof.
  unfold Member_new. intros Hnew.
  destruct (if truthy (prop data "id") then _ else _) as [id |];
    cbn -[Member_update] in Hnew; [| done].
  destruct (if negb _ && _ then _ else _) as [data' |] eqn:Hdata;
    cbn -[Member_update] in Hnew; [| done].
  destruct (match club with Some _ => _ | None => _ end) as [[user users1] |];
    cbn -[Member_update] in Hnew; [| done].
  destruct (Member_update _ _ _ _ _) as [m1 club1] eqn:Hupdate.
  injection Hnew as <- <- <-.
  exists data', id, user. split; [| done].
  intros field Hfield.
  destruct (negb _ && _).
  - destruct (get_field _ _) as [v |]; simpl in Hdata; [| done].
    injection Hdata as <-. by rewrite prop_insert, decide_False.
  - by injection Hdata as <-.
Qed.

(** X29.  A member constructed from a payload without roles starts
    with an empty role list: if it is not the owner, its [permissions] are
    exactly the allow mask of the everyone role. *)
Theorem fresh_member_permissions
    P Date_parse Object_assign data club users m users' club' everyone :
  Member_new Date_parse Object_assign data (Some club) users = Ok (m, users', club') ->
  prop data "roles" = JUndefined ->
  strict_eq (member_id m) (prop (club_props club) "ownerID") = false ->
  roles club !! club_id club = Some everyone ->
  prop (member_props m) "roles" = JArr []
  /\ Member_permissions P club' m = Ok {| allow := allow (role_permissions everyone) |}.
Proof.
  intros Hnew Hroles Howner Heveryone.
  destruct (Member_new_Ok _ _ _ _ _ _ _ _ Hnew) as (data' & id & user & Hdata & Hupdate).
  assert (prop (member_props m) "roles" = JArr []) as Hempty.
  { pose proof (f_equal fst Hupdate) as Hm. cbn [fst] in Hm. rewrite <- Hm.
    rewrite Member_update_props. cbn [member_props].
    rewrite (assign_all_prop _ data' _ (fun v => v) "roles" "roles").
    - by rewrite Hdata, Hroles.
    - apply NoDup_Member_assignments.
    - unfold Member_assignments.
      repeat first [apply list_elem_of_here | apply list_elem_of_further]. }
  split; [done |].
  destruct (Member_update_untouched Date_parse Object_assign data' club
              {| member_id := id; member_user := user;
                 member_props :=
                   <["roles" := JArr []]> (<["nick" := JNull]> (<["game" := JNull]> ∅)) |})
    as (_ & _ & c' & Hclub & Hcid & Hcprops & Hcroles & _).
  rewrite Hupdate in Hclub. simpl in Hclub. subst club'.
  unfold Member_permissions.
  rewrite (Club_permissionsOf_roles P c' (inl m) m everyone []);
    rewrite ?Hcid, ?Hcprops, ?Hcroles; done.
Qed.

Lemma fresh_member_permissions_witness :
  exists m users' club',
    Member_new (fun v => v) (fun target source => target) sample_join
      (Some sample_club) sample_users = Ok (m, users', club')
    /\ prop (member_props m) "roles" = JArr []
    /\ Member_permissions sample_Permissions club' m = Ok {| allow := 1024 |}.
Proof.
  eexists _, _, _. split; [reflexivity |].
  apply (fresh_member_permissions sample_Permissions (fun v => v)
           (fun target source => target) sample_join sample_club sample_users
           _ _ _ (role "100" 1024) eq_refl); reflexivity.
Defined.

(** X30.  [permissions] is computed on every access.  Once a payload
    that carries a role list is merged into a member, the getter resolves
    the new list against the role registry of the club, whatever the member
    held before. *)
Theorem permissions_follow_roles P Date_parse Object_assign data club m everyone ids :
  prop data "roles" = JArr ids ->
  strict_eq (member_id m) (prop (club_props club) "ownerID") = false ->
  roles club !! club_id club = Some everyone ->
  Member_permissions P
    (Member_update Date_parse Object_assign data (Some club) m).2
    (Member_update Date_parse Object_assign data (Some club) m).1
  = Ok {| allow :=
            if existsb (is_administrator P) (held_roles (roles club) ids)
            then all P
            else accumulated everyone (held_roles (roles club) ids) |}.
Proof.
  intros Hroles Howner Heveryone.
  destruct (Member_update_untouched Date_parse Object_assign data club m)
    as (Hid & _ & c' & Hclub & Hcid & Hcprops & Hcroles & _).
  rewrite Hclub. unfold Member_permissions.
  rewrite (Club_permissionsOf_roles P c'
             (inl (Member_update Date_parse Object_assign data (Some club) m).1)
             (Member_update Date_parse Object_assign data (Some club) m).1
             everyone ids);
    rewrite ?Hcid, ?Hcprops, ?Hcroles, ?Hid; try done.
  rewrite Member_update_props.
  rewrite (assign_all_prop _ data _ (fun v => v) "roles" "roles").
  - by rewrite Hroles.
  - apply NoDup_Member_assignments.
  - unfold Member_assignments.
    repeat first [apply list_elem_of_here | apply list_elem_of_further].
Qed.

Lemma permissions_follow_roles_witness :
  Member_permissions sample_Permissions
    (Member_update (fun v => v) (fun target source => target) sample_roles_patch
       (Some sample_club) sample_member).2
    (Member_update (fun v => v) (fun target source => target) sample_roles_patch
       (Some sample_club) sample_member).1
  = Ok {| allow := 2147483647 |}.
Proof.
  apply (permissions_follow_roles sample_Permissions (fun v => v)
           (fun target source => target) sample_roles_patch sample_club sample_member
           (role "100" 1024) [JStr "200"]); reflexivity.
Defined.
